(** * SPDC correlation engine: a shallow embedding of [PP_SPDC_simulation_jax.py]

    The script simulates spontaneous parametric down-conversion and accumulates
    the correlation tensors G1, Q and G2 over N random trials.  This file
    embeds the array operations and the control flow of the script and proves
    the properties its specification states.

    Conventions.
    - An array of rank 2 is a list of rows ([matrix]); rank 1 is a list.
    - Complex scalars are pairs of reals; arithmetic is the exact one, so the
      statements are about the algorithm and not about rounding.
    - An operation of numpy that can raise (an element-wise operation on
      shapes that do not broadcast, a boolean mask of another shape, a
      reshape to another size) returns an [option]; the statement that runs
      it stops the script on [None].
    - Everything imported from [All_SPDC_funcs] (crystal, beams, propagation,
      Fourier transform, accumulator classes, ...) is a collaborator of the
      script: it is gathered in one interface, [SPDC_funcs]. *)

From Stdlib Require Import List Arith PeanoNat Lia Bool.
From Stdlib Require Import Reals Lra.
Import ListNotations.

(* ================================================================= *)
(** * Part I: definitions *)
(* ================================================================= *)

(** ** Arrays *)

Module Arr.

Definition matrix (A : Type) := list (list A).

Section Generic.
Context {A : Type}.

(** [m[r][c]], with a default for indices out of range. *)
Definition mget (d : A) (m : matrix A) (r c : nat) : A :=
  nth c (nth r m []) d.

(** [np.shape(m) == (n, k)]. *)
Definition has_shape (n k : nat) (m : matrix A) : Prop :=
  length m = n /\ Forall (fun row => length row = k) m.

Definition has_shapeb (n k : nat) (m : matrix A) : bool :=
  (length m =? n) && forallb (fun row => length row =? k) m.

(** The array whose entry (r, c) is [f r c]. *)
Definition tabulate (n k : nat) (f : nat -> nat -> A) : matrix A :=
  map (fun r => map (f r) (seq 0 k)) (seq 0 n).

(** [np.ravel]: row-major flattening. *)
Definition ravel (m : matrix A) : list A := concat m.

(** [np.reshape(l, (n, k))]: fails unless [l] has exactly [n * k] elements. *)
Definition reshape (n k : nat) (l : list A) : option (matrix A) :=
  if length l =? n * k
  then Some (map (fun r => firstn k (skipn (r * k) l)) (seq 0 n))
  else None.

(** [m.T]: the number of columns is read off the first row. *)
Definition transpose (d : A) (m : matrix A) : matrix A :=
  map (fun c => map (fun row => nth c row d) m) (seq 0 (length (hd [] m))).

End Generic.

(** Element-wise combination of two lists of the same length. *)
Fixpoint map2 {A B C : Type} (f : A -> B -> C) (l1 : list A) (l2 : list B) : list C :=
  match l1, l2 with
  | x :: t1, y :: t2 => f x y :: map2 f t1 t2
  | _, _ => []
  end.

(** Element-wise combination of two arrays of the same shape. *)
Definition mmap2 {A B C : Type} (f : A -> B -> C) (m1 : matrix A) (m2 : matrix B)
  : matrix C :=
  map2 (map2 f) m1 m2.

Definition mmap {A B : Type} (f : A -> B) (m : matrix A) : matrix B :=
  map (map f) m.

(** Two arrays have the same number of rows and, row by row, the same number
    of columns. *)
Definition same_shapeb {A B : Type} (m1 : matrix A) (m2 : matrix B) : bool :=
  (length m1 =? length m2)
  && forallb (fun p => length (fst p) =? length (snd p)) (combine m1 m2).

(** The shape numpy gives a two-dimensional array: none for rows of different
    lengths, which numpy does not hold; an array without rows stands for the
    shape (0, 0). *)
Definition shape_of {A : Type} (m : matrix A) : option (nat * nat) :=
  match m with
  | [] => Some (0, 0)
  | r :: t =>
      if forallb (fun r' => length r' =? length r) t
      then Some (length m, length r) else None
  end.

(** Broadcasting of one dimension: equal lengths, or one of them is 1. *)
Definition bdim (a b : nat) : option nat :=
  if a =? b then Some a
  else if a =? 1 then Some b
  else if b =? 1 then Some a
  else None.

(** A dimension of length 1 repeated [n] times; any other is left alone. *)
Definition stretch {X : Type} (n : nat) (l : list X) : list X :=
  match l with [x] => repeat x n | _ => l end.

Definition broadcast_to {A : Type} (n k : nat) (m : matrix A) : matrix A :=
  stretch n (map (stretch k) m).

(** The element-wise operations of numpy between two arrays: the operands
    are broadcast to a common shape, and it is an error (ValueError) when
    their shapes do not broadcast. *)
Definition broadcast2 {A B C : Type} (f : A -> B -> C) (m1 : matrix A) (m2 : matrix B)
  : option (matrix C) :=
  match shape_of m1, shape_of m2 with
  | Some (a, b), Some (c, d) =>
      match bdim a c, bdim b d with
      | Some n, Some k => Some (mmap2 f (broadcast_to n k m1) (broadcast_to n k m2))
      | _, _ => None
      end
  | _, _ => None
  end.

Definition obind {A B : Type} (x : option A) (f : A -> option B) : option B :=
  match x with Some a => f a | None => None end.

(** [range(0, n, step)] of Python, for a positive step. *)
Definition py_range (n step : nat) : list nat :=
  map (fun q => q * step) (seq 0 ((n + step - 1) / step)).

Definition memb (x : nat) (l : list nat) : bool := existsb (Nat.eqb x) l.

(** Apply [f] to every element together with its index. *)
Definition mapi {A B : Type} (f : nat -> A -> B) (l : list A) : list B :=
  map (fun p => f (fst p) (snd p)) (combine (seq 0 (length l)) l).

(** [ops.index_update(m, ops.index[::rstep, ::cstep], v)]: a copy of [m] with
    [v] at every position whose row is in [range(0, rows, rstep)] and whose
    column is in [range(0, cols, cstep)]. *)
Definition index_update_strided {A : Type} (m : matrix A) (rstep cstep : nat) (v : A)
  : matrix A :=
  let rows := py_range (length m) rstep in
  mapi (fun r row =>
          if memb r rows
          then let cols := py_range (length row) cstep in
               mapi (fun c x => if memb c cols then v else x) row
          else row) m.

(** The entries of a row, and of an array, at the positions a mask of the
    same shape flags, in row-major order. *)
Definition select_row {A : Type} (row : list A) (mrow : list bool) : list A :=
  map fst (filter snd (combine row mrow)).

Definition selected {A : Type} (m : matrix A) (mask : matrix bool) : list A :=
  concat (map2 select_row m mask).

(** [m[mask]] with a boolean mask: the selected entries in row-major order,
    and an error (IndexError) when the mask has not the shape of [m]. *)
Definition mask_select {A : Type} (m : matrix A) (mask : matrix bool)
  : option (list A) :=
  if same_shapeb m mask then Some (selected m mask) else None.

End Arr.
Import Arr.

(** ** Complex scalars *)

Module Cplx.

Definition C : Type := (R * R)%type.

Definition C0 : C := (0%R, 0%R).
Definition Cre (z : C) : R := fst z.
Definition Cim (z : C) : R := snd z.
Definition Cadd (x y : C) : C := ((Cre x + Cre y)%R, (Cim x + Cim y)%R).
Definition Cmul (x y : C) : C :=
  ((Cre x * Cre y - Cim x * Cim y)%R, (Cre x * Cim y + Cim x * Cre y)%R).
Definition Cconj (z : C) : C := (Cre z, (- Cim z)%R).
(** A complex number times or over a real one. *)
Definition Cscale (a : R) (z : C) : C := ((a * Cre z)%R, (a * Cim z)%R).
Definition Cdivr (z : C) (a : R) : C := ((Cre z / a)%R, (Cim z / a)%R).

End Cplx.
Import Cplx.

Definition cmat := matrix C.
Definition rmat := matrix R.

(** Array arithmetic of numpy on arrays of one shape. *)
Definition zeros (n k : nat) : cmat := tabulate n k (fun _ _ => C0).
Definition madd (a b : cmat) : cmat := mmap2 Cadd a b.
Definition mmul (a b : cmat) : cmat := mmap2 Cmul a b.
Definition mconj (a : cmat) : cmat := mmap Cconj a.
Definition mreal (a : cmat) : rmat := mmap Cre a.
Definition mscale (x : R) (a : cmat) : cmat := mmap (Cscale x) a.
Definition mdivr (a : cmat) (x : R) : cmat := mmap (fun z => Cdivr z x) a.
(** [a + b] and [a * b] of numpy, with broadcasting and its error. *)
Definition np_add (a b : cmat) : option cmat := broadcast2 Cadd a b.
Definition np_mul (a b : cmat) : option cmat := broadcast2 Cmul a b.
(** [np.size]. *)
Definition np_size {A : Type} (m : matrix A) : nat := length (ravel m).
(** Conjugate transpose. *)
Definition dagger (a : cmat) : cmat := mconj (transpose C0 a).
(** The outer product of two vectors: entry (r, c) is [u[r] * v[c]]. *)
Definition outer (u v : list C) : cmat := map (fun a => map (Cmul a) v) u.
(** The sum of a list of [n] by [k] arrays. *)
Definition msum (n k : nat) (l : list cmat) : cmat := fold_left madd l (zeros n k).

(** The right-hand side of line 244,
    [np.real(G1.ii * G1.ss + Q.si_dagger * Q.si + G1.si_dagger * G1.si)],
    as a function of the six arrays it reads. *)
Definition G2_of (G1_ii G1_ss G1_si G1_si_dagger Q_si Q_si_dagger : cmat) : rmat :=
  mreal (madd (madd (mmul G1_ii G1_ss) (mmul Q_si_dagger Q_si))
              (mmul G1_si_dagger G1_si)).

(** The same, one entry at a time. *)
Definition G2_entry (G1_ii G1_ss G1_si G1_si_dagger Q_si Q_si_dagger : cmat)
           (r c : nat) : C :=
  Cadd (Cadd (Cmul (mget C0 G1_ii r c) (mget C0 G1_ss r c))
             (Cmul (mget C0 Q_si_dagger r c) (mget C0 Q_si r c)))
       (Cmul (mget C0 G1_si_dagger r c) (mget C0 G1_si r c)).

(** Line 244 as numpy evaluates it: the products are formed and added from
    left to right, each operation broadcasting its operands or failing. *)
Definition G2_checked (G1_ii G1_ss G1_si G1_si_dagger Q_si Q_si_dagger : cmat)
  : option rmat :=
  obind (np_mul G1_ii G1_ss) (fun p1 =>
  obind (np_mul Q_si_dagger Q_si) (fun p2 =>
  obind (np_add p1 p2) (fun s12 =>
  obind (np_mul G1_si_dagger G1_si) (fun p3 =>
  option_map mreal (np_add s12 p3))))).

(** ** The Kronecker layout *)

Module Kron.

(** [np.kron(a, b)] for two arrays of rank 2: the block matrix whose block
    (i, j) is [a[i][j] * b]. *)
Definition np_kron (a b : cmat) : cmat :=
  flat_map (fun ra => map (fun rb => flat_map (fun x => map (Cmul x) rb) ra) b) a.

Section Layout.
Context {A : Type}.

(** Under that layout the entry (i, j, k, l) of the four-index tensor sits at
    row [i * M + k] and column [j * M + l] of the M^2 by M^2 matrix. *)
Definition kron_entry (d : A) (M : nat) (G : matrix A) (i j k l : nat) : A :=
  mget d G (i * M + k) (j * M + l).

(** Lines 197-202 of the script, the per-element loop the mask replaces:
    [P[i, j] = G1[i, j, i, j]]. *)
Definition P_loop (d : A) (M : nat) (G : matrix A) : matrix A :=
  tabulate M M (fun i j => kron_entry d M G i j i j).

End Layout.

(** Lines 69-70: the diagonal-element indicator, built from an array of zeros
    by a strided update. *)
Definition Kron_diag (M : nat) : matrix nat :=
  index_update_strided (tabulate (M ^ 2) (M ^ 2) (fun _ _ => 0)) (M + 1) (M + 1) 1.

(** The index [r] is a multiple of M + 1. *)
Definition on_stride (M r : nat) : bool := r mod (M + 1) =? 0.

(** [Kron_diag != 0]. *)
Definition Kron_mask (M : nat) : matrix bool :=
  mmap (fun x => negb (x =? 0)) (Kron_diag M).

(** Lines 211-212 without the normalisation:
    [np.reshape(G[Kron_diag != 0], (M, M))]. *)
Definition diag_extract {A : Type} (M : nat) (G : matrix A) : option (matrix A) :=
  obind (mask_select G (Kron_mask M)) (reshape M M).

End Kron.
Import Kron.

(** ** Correlation accumulators *)

(** The four far-field arrays one trial hands to the accumulators. *)
Record Trial : Type := mkTrial {
  t_s_out : cmat;   (* E_s_out_k *)
  t_s_vac : cmat;   (* E_s_vac_k *)
  t_i_out : cmat;   (* E_i_out_k *)
  t_i_vac : cmat    (* E_i_vac_k *)
}.

Module Accum.

Record Acc : Type := mkAcc {
  ii : cmat;
  ss : cmat;
  si : cmat;
  si_dagger : cmat
}.

(** The outer product of a field pair, the fields flattened to vectors. *)
Definition pair_outer (u v : cmat) : cmat := outer (ravel u) (ravel v).

(** Modelled from the spec: the classes [G1_mat] and [Q_mat] of
    [All_SPDC_funcs] are not among the sources.  Section 4.3: [update] adds to
    each of [ii], [ss], [si] the outer product of the appropriate field pair
    divided by N, and sets [si_dagger] to the conjugate transpose of the
    updated [si].  Section 3: the matrices are M^2 by M^2. *)
Definition acc_init (M : nat) : Acc :=
  {| ii := zeros (M ^ 2) (M ^ 2);
     ss := zeros (M ^ 2) (M ^ 2);
     si := zeros (M ^ 2) (M ^ 2);
     si_dagger := zeros (M ^ 2) (M ^ 2) |}.

Definition acc_update (f_ii f_ss f_si : Trial -> cmat) (a : Acc) (t : Trial) (N : nat)
  : Acc :=
  let si' := madd (si a) (mdivr (f_si t) (INR N)) in
  {| ii := madd (ii a) (mdivr (f_ii t) (INR N));
     ss := madd (ss a) (mdivr (f_ss t) (INR N));
     si := si';
     si_dagger := dagger si' |}.

(** Modelled from the spec: G1 correlates the vacuum component of a field
    with a conjugated vacuum component (first-order coherence), for the pairs
    idler-idler, signal-signal and signal-idler. *)
Definition G1_ii (t : Trial) : cmat := pair_outer (mconj (t_i_vac t)) (t_i_vac t).
Definition G1_ss (t : Trial) : cmat := pair_outer (mconj (t_s_vac t)) (t_s_vac t).
Definition G1_si (t : Trial) : cmat := pair_outer (mconj (t_s_vac t)) (t_i_vac t).

(** Modelled from the spec: Q correlates the vacuum and the output components
    (pair amplitude), for the same three pairs. *)
Definition Q_ii (t : Trial) : cmat := pair_outer (t_i_vac t) (t_i_out t).
Definition Q_ss (t : Trial) : cmat := pair_outer (t_s_vac t) (t_s_out t).
Definition Q_si (t : Trial) : cmat := pair_outer (t_s_vac t) (t_i_out t).

Definition G1_mat (M : nat) : Acc := acc_init M.
Definition Q_mat (M : nat) : Acc := acc_init M.

Definition G1_update (a : Acc) (E_s_out_k E_s_vac_k E_i_out_k E_i_vac_k : cmat) (N : nat)
  : Acc :=
  acc_update G1_ii G1_ss G1_si a (mkTrial E_s_out_k E_s_vac_k E_i_out_k E_i_vac_k) N.

Definition Q_update (a : Acc) (E_s_out_k E_s_vac_k E_i_out_k E_i_vac_k : cmat) (N : nat)
  : Acc :=
  acc_update Q_ii Q_ss Q_si a (mkTrial E_s_out_k E_s_vac_k E_i_out_k E_i_vac_k) N.

(** The accumulator after the trials of [ts], in order. *)
Definition updates (f_ii f_ss f_si : Trial -> cmat) (a : Acc) (ts : list Trial) (N : nat)
  : Acc :=
  fold_left (fun a t => acc_update f_ii f_ss f_si a t N) ts a.

(** The sum of the outer products of the trials of [ts], divided by [x]. *)
Definition sum_over (n : nat) (f : Trial -> cmat) (ts : list Trial) (x : R) : cmat :=
  mdivr (msum n n (map f ts)) x.

(** The arithmetic mean over the trials of [ts]. *)
Definition mean_over (n : nat) (f : Trial -> cmat) (ts : list Trial) : cmat :=
  sum_over n f ts (INR (length ts)).

(** [a] is Hermitian: it equals its conjugate transpose. *)
Definition hermitian (a : cmat) : Prop := dagger a = a.

(** A trial whose four fields are M by M. *)
Definition trial_shape (M : nat) (t : Trial) : Prop :=
  has_shape M M (t_s_out t) /\ has_shape M M (t_s_vac t) /\
  has_shape M M (t_i_out t) /\ has_shape M M (t_i_vac t).

Definition acc_shape (n : nat) (a : Acc) : Prop :=
  has_shape n n (ii a) /\ has_shape n n (ss a) /\
  has_shape n n (si a) /\ has_shape n n (si_dagger a).

End Accum.

(** ** Reduction *)

Module Reducer.

Definition tensor4 (A : Type) := list (list (list (list A))).

Section Tensor.
Context {A : Type}.

Definition t4get (d : A) (T : tensor4 A) (i j k l : nat) : A :=
  nth l (nth k (nth j (nth i T []) []) []) d.

Definition tabulate4 (M : nat) (f : nat -> nat -> nat -> nat -> A) : tensor4 A :=
  map (fun i => map (fun j => map (fun k => map (f i j k) (seq 0 M)) (seq 0 M)) (seq 0 M))
      (seq 0 M).

(** Modelled from the spec: [unwrap_kron] of [All_SPDC_funcs] is not among the
    sources.  Section 4.5: the M x M x M x M form is rebuilt by inverting the
    row and column flattening, index [i * M + j] to (i, j). *)
Definition unwrap_kron (d : A) (G : matrix A) (M : nat) : tensor4 A :=
  tabulate4 M (fun i j k l => mget d G (i * M + j) (k * M + l)).

(** Re-flattening with the same index map. *)
Definition rewrap_kron (d : A) (T : tensor4 A) (M : nat) : matrix A :=
  tabulate (M ^ 2) (M ^ 2) (fun r c => t4get d T (r / M) (r mod M) (c / M) (c mod M)).

End Tensor.

End Reducer.
Import Reducer.

(** ** The script *)

(** One vacuum sample [vac_rnd[n]]: two quadratures on the grid. *)
Definition VacSample := list rmat.

(** What the script imports from [All_SPDC_funcs] and from jax. *)
Class SPDC_funcs : Type := {
  Crystal : Type;
  Beam : Type;
  FieldT : Type;
  PRNGKey : Type;
  AccT : Type;
  (* Crystal attributes *)
  crystal_x : Crystal -> list R;
  crystal_y : Crystal -> list R;
  MaxX : Crystal -> R;
  crystal_dx : Crystal -> R;
  poling_period : Crystal -> R;
  (* Beam attributes *)
  beam_lam : Beam -> R;
  beam_k : Beam -> R;
  beam_n : Beam -> R;
  beam_w : Beam -> R;
  (* jax.random.normal(key, (N, 2, Nx, Ny)) *)
  random_normal : PRNGKey -> nat -> nat -> nat -> nat -> list VacSample;
  (* Field(beam, crystal, vac_rnd), its attributes, and the propagators, which
     leave their result in the fields they are given *)
  Field : Beam -> Crystal -> VacSample -> FieldT;
  E_out : FieldT -> cmat;
  E_vac : FieldT -> cmat;
  crystal_prop_indistuigishable : Beam -> FieldT -> Crystal -> FieldT;
  crystal_prop : Beam -> FieldT -> FieldT -> Crystal -> FieldT * FieldT;
  Fourier : cmat -> cmat;
  car2pol : cmat -> cmat;
  (* G1_mat(), Q_mat() and their update method *)
  G1_mat : AccT;
  Q_mat : AccT;
  G1_update : AccT -> cmat -> cmat -> cmat -> cmat -> nat -> AccT;
  Q_update : AccT -> cmat -> cmat -> cmat -> cmat -> nat -> AccT;
  acc_ii : AccT -> cmat;
  acc_ss : AccT -> cmat;
  acc_si : AccT -> cmat;
  acc_si_dagger : AccT -> cmat;
  (* display helpers *)
  G1_Normalization : R -> R;
  unwrap_kron : rmat -> nat -> tensor4 R;
  trace_it : tensor4 R -> nat -> nat -> rmat;
  FF_position_axis : R -> R -> R -> R -> list R
}.

Module Script.

Section Run.
Context {F : SPDC_funcs}.

(** The module-level names the run depends on (lines 47-82). *)
Record Config : Type := mkConfig {
  PP_SLT : Crystal;
  R_screen : R;                      (* R, the distance to the far-field screen *)
  Pump : Beam;
  Signal : Beam;
  Idler : Beam;
  IS_INDISTIGUISHABLE : bool;
  DO_POLAR : bool;
  N : nat;
  key1 : PRNGKey;
  key2 : PRNGKey
}.

Definition M (cfg : Config) : nat := length (crystal_x (PP_SLT cfg)).
Definition Nx (cfg : Config) : nat := length (crystal_x (PP_SLT cfg)).
Definition Ny (cfg : Config) : nat := length (crystal_y (PP_SLT cfg)).

(** The same run with another seed for the idler's vacuum. *)
Definition with_key2 (cfg : Config) (k : PRNGKey) : Config :=
  mkConfig (PP_SLT cfg) (R_screen cfg) (Pump cfg) (Signal cfg) (Idler cfg)
           (IS_INDISTIGUISHABLE cfg) (DO_POLAR cfg) (N cfg) (key1 cfg) k.

(** Lines 81-82. *)
Definition vac_rnd_sig (cfg : Config) : list VacSample :=
  random_normal (key1 cfg) (N cfg) 2 (Nx cfg) (Ny cfg).
Definition vac_rnd_idl (cfg : Config) : list VacSample :=
  random_normal (key2 cfg) (N cfg) 2 (Nx cfg) (Ny cfg).

(** The accumulators of the run; the polar ones exist under [DO_POLAR] only. *)
Record Accs : Type := mkAccs {
  G1 : AccT;
  Q : AccT;
  G1_pol : option AccT;
  Q_pol : option AccT
}.

(** Lines 85-90. *)
Definition init_accs (cfg : Config) : Accs :=
  {| G1 := G1_mat;
     Q := Q_mat;
     G1_pol := if DO_POLAR cfg then Some G1_mat else None;
     Q_pol := if DO_POLAR cfg then Some Q_mat else None |}.

(** What a trial does to the outside: the fields it builds, the propagations
    it runs and the accumulator updates it makes, with their arguments. *)
Inductive Role : Type := RSignal | RIdler.
Inductive AccName : Type := NG1 | NQ | NG1_pol | NQ_pol.
Inductive Event : Type :=
| EvField (role : Role) (n : nat) (vac : VacSample)
| EvProp (roles : list Role) (n : nat)
| EvUpdate (a : AccName) (n : nat) (t : Trial) (Ntot : nat).

Definition LoopState : Type := (Accs * list Event)%type.

(** [(2 * PP_SLT.MaxX) ** 2 / (np.size(E) * beam.lam * R)]. *)
Definition FarFieldNorm (cfg : Config) (b : Beam) (E : cmat) : R :=
  ((2 * MaxX (PP_SLT cfg)) ^ 2 / (INR (np_size E) * beam_lam b * R_screen cfg))%R.

Definition update_all (cfg : Config) (n : nat) (a : Accs) (t : Trial) : Accs :=
  let tp := mkTrial (car2pol (t_s_out t)) (car2pol (t_s_vac t))
                    (car2pol (t_i_out t)) (car2pol (t_i_vac t)) in
  {| G1 := G1_update (G1 a) (t_s_out t) (t_s_vac t) (t_i_out t) (t_i_vac t) (N cfg);
     Q := Q_update (Q a) (t_s_out t) (t_s_vac t) (t_i_out t) (t_i_vac t) (N cfg);
     G1_pol := if DO_POLAR cfg
               then option_map (fun g => G1_update g (t_s_out tp) (t_s_vac tp)
                                                   (t_i_out tp) (t_i_vac tp) (N cfg))
                               (G1_pol a)
               else G1_pol a;
     Q_pol := if DO_POLAR cfg
              then option_map (fun g => Q_update g (t_s_out tp) (t_s_vac tp)
                                                 (t_i_out tp) (t_i_vac tp) (N cfg))
                              (Q_pol a)
              else Q_pol a |}.

Definition update_events (cfg : Config) (n : nat) (t : Trial) : list Event :=
  let tp := mkTrial (car2pol (t_s_out t)) (car2pol (t_s_vac t))
                    (car2pol (t_i_out t)) (car2pol (t_i_vac t)) in
  [EvUpdate NG1 n t (N cfg); EvUpdate NQ n t (N cfg)]
  ++ (if DO_POLAR cfg
      then [EvUpdate NG1_pol n tp (N cfg); EvUpdate NQ_pol n tp (N cfg)]
      else []).

(** Lines 101-112: the far fields of trial [n] in the degenerate case. *)
Definition fields_indist (cfg : Config) (n : nat) : Trial :=
  let Siganl_field := Field (Signal cfg) (PP_SLT cfg) (nth n (vac_rnd_sig cfg) []) in
  let Siganl_field := crystal_prop_indistuigishable (Pump cfg) Siganl_field (PP_SLT cfg) in
  let FarFieldNorm_signal := FarFieldNorm cfg (Signal cfg) (E_out Siganl_field) in
  let E_s_out_k := mscale FarFieldNorm_signal (Fourier (E_out Siganl_field)) in
  let E_s_vac_k := mscale FarFieldNorm_signal (Fourier (E_vac Siganl_field)) in
  (* lines 117, 122: the signal arrays are passed in the idler slots too *)
  mkTrial E_s_out_k E_s_vac_k E_s_out_k E_s_vac_k.

(** Lines 143-158: the far fields of trial [n] in the distinguishable case. *)
Definition fields_dist (cfg : Config) (n : nat) : Trial :=
  let Siganl_field := Field (Signal cfg) (PP_SLT cfg) (nth n (vac_rnd_sig cfg) []) in
  let Idler_field := Field (Idler cfg) (PP_SLT cfg) (nth n (vac_rnd_idl cfg) []) in
  let fields := crystal_prop (Pump cfg) Siganl_field Idler_field (PP_SLT cfg) in
  let Siganl_field := fst fields in
  let Idler_field := snd fields in
  let FarFieldNorm_signal := FarFieldNorm cfg (Signal cfg) (E_out Siganl_field) in
  let FarFieldNorm_idler := FarFieldNorm cfg (Idler cfg) (E_out Idler_field) in
  let E_s_out_k := mscale FarFieldNorm_signal (Fourier (E_out Siganl_field)) in
  let E_i_out_k := mscale FarFieldNorm_idler (Fourier (E_out Idler_field)) in
  let E_s_vac_k := mscale FarFieldNorm_signal (Fourier (E_vac Siganl_field)) in
  let E_i_vac_k := mscale FarFieldNorm_idler (Fourier (E_vac Idler_field)) in
  mkTrial E_s_out_k E_s_vac_k E_i_out_k E_i_vac_k.

(** One pass through the body of the loop at lines 96-130. *)
Definition trial_indist (cfg : Config) (n : nat) (st : LoopState) : LoopState :=
  let t := fields_indist cfg n in
  (update_all cfg n (fst st) t,
   snd st ++ EvField RSignal n (nth n (vac_rnd_sig cfg) [])
          :: EvProp [RSignal] n
          :: update_events cfg n t).

(** One pass through the body of the loop at lines 138-178. *)
Definition trial_dist (cfg : Config) (n : nat) (st : LoopState) : LoopState :=
  let t := fields_dist cfg n in
  (update_all cfg n (fst st) t,
   snd st ++ EvField RSignal n (nth n (vac_rnd_sig cfg) [])
          :: EvField RIdler n (nth n (vac_rnd_idl cfg) [])
          :: EvProp [RSignal; RIdler] n
          :: update_events cfg n t).

(** Line 95: the flag selects the loop. *)
Definition trial (cfg : Config) (n : nat) (st : LoopState) : LoopState :=
  if IS_INDISTIGUISHABLE cfg then trial_indist cfg n st else trial_dist cfg n st.

(** [for n in ns]: the state at the end, and the states after each pass. *)
Fixpoint run_trials (cfg : Config) (ns : list nat) (st : LoopState) : LoopState :=
  match ns with
  | [] => st
  | n :: rest => run_trials cfg rest (trial cfg n st)
  end.

Fixpoint trajectory_from (cfg : Config) (ns : list nat) (st : LoopState) : list Accs :=
  match ns with
  | [] => []
  | n :: rest => let st' := trial cfg n st in fst st' :: trajectory_from cfg rest st'
  end.

(** [for n in range(N)], from the fresh accumulators. *)
Definition run_loop (cfg : Config) : LoopState :=
  run_trials cfg (seq 0 (N cfg)) (init_accs cfg, []).

Definition trajectory (cfg : Config) : list Accs :=
  trajectory_from cfg (seq 0 (N cfg)) (init_accs cfg, []).

(** The events of pass [n] alone. *)
Definition trial_events (cfg : Config) (n : nat) : list Event :=
  snd (trial cfg n (init_accs cfg, [])).

(** An event of a degenerate run: only the signal is built and propagated,
    and an update gets the signal's arrays in its idler slots. *)
Definition degenerate_event (e : Event) : Prop :=
  match e with
  | EvField role _ _ => role = RSignal
  | EvProp roles _ => roles = [RSignal]
  | EvUpdate _ _ t _ => t_i_out t = t_s_out t /\ t_i_vac t = t_s_vac t
  end.

(** The polar accumulators exist under [DO_POLAR]. *)
Definition polar_ok (cfg : Config) (a : Accs) : Prop :=
  DO_POLAR cfg = true -> exists g q, G1_pol a = Some g /\ Q_pol a = Some q.

(** Line 132: [Idler = Signal] at the end of the degenerate branch. *)
Definition Idler_after (cfg : Config) : Beam :=
  if IS_INDISTIGUISHABLE cfg then Signal cfg else Idler cfg.

(** Line 244 (and 248): the composition of G2 from two accumulators, on
    arrays of one shape and then as numpy evaluates it. *)
Definition compose_G2 (g1 q : AccT) : rmat :=
  G2_of (acc_ii g1) (acc_ss g1) (acc_si g1) (acc_si_dagger g1)
        (acc_si q) (acc_si_dagger q).

Definition compose_G2_checked (g1 q : AccT) : option rmat :=
  G2_checked (acc_ii g1) (acc_ss g1) (acc_si g1) (acc_si_dagger g1)
             (acc_si q) (acc_si_dagger q).

(** *** After the loop (lines 193-314)

    The arrays the rest of the script binds, as the module's name space: a
    name is unbound until a statement assigns it.  Plotting is left out. *)
Inductive Var : Type :=
| VG1_pol_ii_diag | VG1_pol_ss_diag | VP_ii | VP_ss | VG2 | VG2_pol
| VG2_unwrapped | VG2_reduced | VG2_pol_unwrapped | VG2_pol_reduced.

Inductive Value : Type :=
| ValC (m : cmat)
| ValR (m : rmat)
| ValT (t : tensor4 R).

Definition Var_eqb (x y : Var) : bool :=
  match x, y with
  | VG1_pol_ii_diag, VG1_pol_ii_diag | VG1_pol_ss_diag, VG1_pol_ss_diag
  | VP_ii, VP_ii | VP_ss, VP_ss | VG2, VG2 | VG2_pol, VG2_pol
  | VG2_unwrapped, VG2_unwrapped | VG2_reduced, VG2_reduced
  | VG2_pol_unwrapped, VG2_pol_unwrapped | VG2_pol_reduced, VG2_pol_reduced => true
  | _, _ => false
  end.

Definition Env : Type := Var -> option Value.
Definition unbound : Env := fun _ => None.
Definition bind (e : Env) (x : Var) (v : Value) : Env :=
  fun y => if Var_eqb x y then Some v else e y.

(** An assignment [target = rhs], with the line it stands on; [rhs] fails
    when it reads an unbound name or when an array operation raises. *)
Record Stmt : Type := mkStmt {
  line : nat;
  target : Var;
  rhs : Env -> option Value
}.

Definition exec1 (s : Stmt) (e : Env) : option Env :=
  match rhs s e with
  | Some v => Some (bind e (target s) v)
  | None => None
  end.

Fixpoint exec (prog : list Stmt) (e : Env) : option Env :=
  match prog with
  | [] => Some e
  | s :: rest => match exec1 s e with
                 | Some e' => exec rest e'
                 | None => None
                 end
  end.

Definition rscale (x : R) (m : rmat) : rmat := mmap (Rmult x) m.
Definition as_R (v : option Value) : option rmat :=
  match v with Some (ValR m) => Some m | _ => None end.
Definition as_T (v : option Value) : option (tensor4 R) :=
  match v with Some (ValT t) => Some t | _ => None end.

Section Tail.
Variable cfg : Config.
Variable a : Accs.            (* the accumulators the loop leaves *)

Definition norm_i : R := G1_Normalization (beam_w (Idler_after cfg)).
Definition norm_s : R := G1_Normalization (beam_w (Signal cfg)).

(** Lines 215-216, 263-264: the far-field resolutions. *)
Definition FFcoordinate_axis (b : Beam) : list R :=
  map (Rmult 1000)
      (FF_position_axis (crystal_dx (PP_SLT cfg)) (MaxX (PP_SLT cfg))
                        (beam_k b / beam_n b) (R_screen cfg)).
Definition dx_farfield (b : Beam) : R :=
  (/ 1000 * (nth 1 (FFcoordinate_axis b) 0 - nth 0 (FFcoordinate_axis b) 0))%R.

(** Lines 225-226. *)
Definition theoretical_angle : R :=
  asin (beam_n (Signal cfg)
        * sin (acos ((beam_k (Pump cfg) - poling_period (PP_SLT cfg)) / 2
                     / beam_k (Signal cfg))) / 1).

Definition tau : R := (/ 1000000000)%R.

Definition masked_diag (g : cmat) (x : R) : option cmat :=
  option_map (fun m => mdivr m x)
             (broadcast2 (fun z d => Cscale (INR d) z) g (Kron_diag (M cfg))).

Definition L194 : Stmt := mkStmt 194 VG1_pol_ii_diag (fun _ =>
  obind (G1_pol a) (fun g => option_map ValC (masked_diag (acc_ii g) norm_i))).
Definition L195 : Stmt := mkStmt 195 VG1_pol_ss_diag (fun _ =>
  obind (G1_pol a) (fun g => option_map ValC (masked_diag (acc_ss g) norm_s))).
Definition L211 : Stmt := mkStmt 211 VP_ii (fun _ =>
  option_map (fun m => ValC (mdivr m norm_i)) (diag_extract (M cfg) (acc_ii (G1 a)))).
Definition L212 : Stmt := mkStmt 212 VP_ss (fun _ =>
  option_map (fun m => ValC (mdivr m norm_s)) (diag_extract (M cfg) (acc_ss (G1 a)))).
Definition L244 : Stmt := mkStmt 244 VG2 (fun _ =>
  option_map ValR (compose_G2_checked (G1 a) (Q a))).
Definition L248 : Stmt := mkStmt 248 VG2_pol (fun _ =>
  match G1_pol a, Q_pol a with
  | Some g, Some q => option_map ValR (compose_G2_checked g q)
  | _, _ => None
  end).
Definition L259 : Stmt := mkStmt 259 VG2_unwrapped (fun e =>
  option_map (fun g => ValT (unwrap_kron g (M cfg))) (as_R (e VG2))).
Definition L279 : Stmt := mkStmt 279 VG2_reduced (fun e =>
  option_map (fun t => ValR (rscale (dx_farfield (Signal cfg))
                              (rscale (dx_farfield (Idler_after cfg)) (trace_it t 1 3))))
             (as_T (e VG2_unwrapped))).
Definition L280 : Stmt := mkStmt 280 VG2_reduced (fun e =>
  option_map (fun m => ValR (rscale (/ (norm_i * norm_s)) (rscale tau m)))
             (as_R (e VG2_reduced))).
Definition L312 : Stmt := mkStmt 312 VG2_pol_unwrapped (fun e =>
  option_map (fun g => ValT (unwrap_kron g (M cfg))) (as_R (e VG2_pol))).
Definition L313 : Stmt := mkStmt 313 VG2_pol_reduced (fun e =>
  let dr := dx_farfield (Idler_after cfg) in
  let r_th := (R_screen cfg * tan theoretical_angle)%R in
  option_map (fun t => ValR (rscale ((r_th * dr) ^ 2) (trace_it t 1 3)))
             (as_T (e VG2_pol_unwrapped))).
Definition L314 : Stmt := mkStmt 314 VG2_pol_reduced (fun e =>
  option_map (fun m => ValR (rscale (/ (norm_i * norm_s)) (rscale tau m)))
             (as_R (e VG2_pol_reduced))).

(** The assignments in the order of the file; the polar ones run under
    [DO_POLAR] only. *)
Definition polar (l : list Stmt) : list Stmt := if DO_POLAR cfg then l else [].

Definition before_G2 : list Stmt := polar [L194; L195] ++ [L211; L212].
Definition after_G2 : list Stmt :=
  polar [L248] ++ [L259; L279; L280] ++ polar [L312; L313; L314].
Definition post_loop : list Stmt := before_G2 ++ L244 :: after_G2.

End Tail.

(** The whole run: the loop, then the assignments after it. *)
Definition run (cfg : Config) : Accs * option Env :=
  let a := fst (run_loop cfg) in
  (a, exec (post_loop cfg a) unbound).

(** The number of assignments to [x] in a program. *)
Definition assignments (x : Var) (prog : list Stmt) : nat :=
  length (filter (fun s => Var_eqb x (target s)) prog).

End Run.

End Script.

(** ** Views of a run

    Readings of the loop's log and of the names bound after the loop, and
    variants of a configuration. *)

(** The squared modulus. *)
Definition Cnorm2 (z : C) : R := (Cre z * Cre z + Cim z * Cim z)%R.

Module Views.
Import Script.

Section Views.
Context {F : SPDC_funcs}.

(** The far fields of pass [n], by the branch the flag selects. *)
Definition trial_fields (cfg : Config) (n : nat) : Trial :=
  if IS_INDISTIGUISHABLE cfg then fields_indist cfg n else fields_dist cfg n.

(** Lines 126-127, 172-175: the four arrays through [car2pol]. *)
Definition polar_fields (t : Trial) : Trial :=
  mkTrial (car2pol (t_s_out t)) (car2pol (t_s_vac t))
          (car2pol (t_i_out t)) (car2pol (t_i_vac t)).


(** The six arrays line 244 (or 248) reads from a G1 and a Q accumulator are
    [n] by [n]. *)
Definition acc_shapes (n : nat) (g q : AccT) : Prop :=
  has_shape n n (acc_ii g) /\ has_shape n n (acc_ss g) /\
  has_shape n n (acc_si g) /\ has_shape n n (acc_si_dagger g) /\
  has_shape n n (acc_si q) /\ has_shape n n (acc_si_dagger q).

(** Under [DO_POLAR] the polar accumulators hold M^2 by M^2 arrays, the
    shape of [Kron_diag]. *)
Definition polar_shapes (cfg : Config) (a : Accs) : Prop :=
  DO_POLAR cfg = true ->
  forall g q, G1_pol a = Some g -> Q_pol a = Some q -> acc_shapes (M cfg ^ 2) g q.

(** The same configuration with another idler beam, or another value of
    [DO_POLAR]. *)
Definition with_Idler (cfg : Config) (b : Beam) : Config :=
  mkConfig (PP_SLT cfg) (R_screen cfg) (Pump cfg) (Signal cfg) b
           (IS_INDISTIGUISHABLE cfg) (DO_POLAR cfg) (N cfg) (key1 cfg) (key2 cfg).

Definition with_polar (cfg : Config) (b : bool) : Config :=
  mkConfig (PP_SLT cfg) (R_screen cfg) (Pump cfg) (Signal cfg) (Idler cfg)
           (IS_INDISTIGUISHABLE cfg) b (N cfg) (key1 cfg) (key2 cfg).

(** The names of the Cartesian pipeline. *)
Definition cartesian (x : Var) : bool :=
  match x with
  | VP_ii | VP_ss | VG2 | VG2_unwrapped | VG2_reduced => true
  | _ => false
  end.

(** Lines 197-202, the loop that lines 211-212 replace:
    [P[i, j] = G[i, j, i, j] / x] for i and j over the grid. *)
Definition P_by_loop (M : nat) (G : cmat) (x : R) : cmat :=
  tabulate M M (fun i j => Cdivr (kron_entry C0 M G i j i j) x).

(** The factor lines 279-280 put on the traced G2, and the one of lines
    313-314. *)
Definition reduced_scale (cfg : Config) : R :=
  (/ (norm_i cfg * norm_s cfg)
   * (tau * (dx_farfield cfg (Signal cfg) * dx_farfield cfg (Idler_after cfg))))%R.

Definition polar_reduced_scale (cfg : Config) : R :=
  (/ (norm_i cfg * norm_s cfg)
   * (tau * (R_screen cfg * tan (theoretical_angle cfg)
             * dx_farfield cfg (Idler_after cfg)) ^ 2))%R.

(** What each name is bound to when the script has run through. *)
Definition result_of (cfg : Config) (a : Accs) (x : Var) : option Value :=
  let polar_G2 :=
    match G1_pol a, Q_pol a with
    | Some g, Some q => compose_G2_checked g q
    | _, _ => None
    end in
  match x with
  | VP_ii => option_map (fun m => ValC (mdivr m (norm_i cfg)))
                        (diag_extract (M cfg) (acc_ii (G1 a)))
  | VP_ss => option_map (fun m => ValC (mdivr m (norm_s cfg)))
                        (diag_extract (M cfg) (acc_ss (G1 a)))
  | VG2 => option_map ValR (compose_G2_checked (G1 a) (Q a))
  | VG2_unwrapped =>
      option_map (fun g => ValT (unwrap_kron g (M cfg)))
                 (compose_G2_checked (G1 a) (Q a))
  | VG2_reduced =>
      option_map (fun g => ValR (rscale (reduced_scale cfg)
                                   (trace_it (unwrap_kron g (M cfg)) 1 3)))
                 (compose_G2_checked (G1 a) (Q a))
  | VG1_pol_ii_diag =>
      if DO_POLAR cfg
      then obind (G1_pol a)
                 (fun g => option_map ValC (masked_diag cfg (acc_ii g) (norm_i cfg)))
      else None
  | VG1_pol_ss_diag =>
      if DO_POLAR cfg
      then obind (G1_pol a)
                 (fun g => option_map ValC (masked_diag cfg (acc_ss g) (norm_s cfg)))
      else None
  | VG2_pol => if DO_POLAR cfg then option_map ValR polar_G2 else None
  | VG2_pol_unwrapped =>
      if DO_POLAR cfg
      then option_map (fun g => ValT (unwrap_kron g (M cfg))) polar_G2
      else None
  | VG2_pol_reduced =>
      if DO_POLAR cfg
      then option_map (fun g => ValR (rscale (polar_reduced_scale cfg)
                                        (trace_it (unwrap_kron g (M cfg)) 1 3)))
                      polar_G2
      else None
  end.

End Views.

End Views.

(** ** Sample data

    A one-point grid (M = 1) whose four far fields all hold the value 1. *)
Definition one_field : cmat := [[(1%R, 0%R)]].
Definition unit_trial : Trial := mkTrial one_field one_field one_field one_field.
Definition imag_field : cmat := [[(0%R, 2%R)]].
Definition imag_trial : Trial := mkTrial one_field imag_field imag_field one_field.

(** One-by-one accumulator matrices: a real diagonal for [ii] and [ss], any
    value for [si]. *)
Definition sample_ii : cmat := [[(2%R, 0%R)]].
Definition sample_ss : cmat := [[(3%R, 0%R)]].
Definition sample_si : cmat := [[(1%R, 1%R)]].
Definition sample_Q_si : cmat := [[(0%R, 1%R)]].

(** A one-point instance of the interface (M = 1): the fields carry the
    vacuum sample unchanged, the accumulators are the ones of [Accum]. *)
Definition toy_funcs : SPDC_funcs := {|
  Crystal := unit;
  Beam := unit;
  FieldT := (cmat * cmat)%type;
  PRNGKey := nat;
  AccT := Accum.Acc;
  crystal_x := fun _ => [0%R];
  crystal_y := fun _ => [0%R];
  MaxX := fun _ => 1%R;
  crystal_dx := fun _ => 1%R;
  poling_period := fun _ => 0%R;
  beam_lam := fun _ => 1%R;
  beam_k := fun _ => 1%R;
  beam_n := fun _ => 1%R;
  beam_w := fun _ => 1%R;
  random_normal := fun key n _ _ _ =>
    map (fun i => [[[INR (key + i)]]; [[0%R]]]) (seq 0 n);
  Field := fun _ _ vac =>
    let z := (mget 0%R (nth 0 vac []) 0 0, mget 0%R (nth 1 vac []) 0 0) in
    ([[z]], [[z]]);
  E_out := fst;
  E_vac := snd;
  crystal_prop_indistuigishable := fun _ f _ => f;
  crystal_prop := fun _ s i _ => (s, i);
  Fourier := fun m => m;
  car2pol := fun m => m;
  G1_mat := Accum.G1_mat 1;
  Q_mat := Accum.Q_mat 1;
  G1_update := Accum.G1_update;
  Q_update := Accum.Q_update;
  acc_ii := Accum.ii;
  acc_ss := Accum.ss;
  acc_si := Accum.si;
  acc_si_dagger := Accum.si_dagger;
  G1_Normalization := fun _ => 1%R;
  unwrap_kron := Reducer.unwrap_kron 0%R;
  trace_it := fun _ _ _ => [];
  FF_position_axis := fun _ _ _ _ => [0%R; 1%R]
|}.

Definition toy_cfg (indist pol : bool) (n k1 k2 : nat) : @Script.Config toy_funcs :=
  @Script.mkConfig toy_funcs tt 1%R tt tt tt indist pol n k1 k2.

(** The same instance on a two-point grid (M = 2) with the accumulators of a
    one-point grid: the extraction of lines 211-212 cannot succeed. *)
Definition toy_funcs_grid2 : SPDC_funcs := {|
  Crystal := unit;
  Beam := unit;
  FieldT := (cmat * cmat)%type;
  PRNGKey := nat;
  AccT := Accum.Acc;
  crystal_x := fun _ => [0%R; 1%R];
  crystal_y := fun _ => [0%R; 1%R];
  MaxX := fun _ => 1%R;
  crystal_dx := fun _ => 1%R;
  poling_period := fun _ => 0%R;
  beam_lam := fun _ => 1%R;
  beam_k := fun _ => 1%R;
  beam_n := fun _ => 1%R;
  beam_w := fun _ => 1%R;
  random_normal := fun key n _ _ _ =>
    map (fun i => [[[INR (key + i)]]; [[0%R]]]) (seq 0 n);
  Field := fun _ _ vac =>
    let z := (mget 0%R (nth 0 vac []) 0 0, mget 0%R (nth 1 vac []) 0 0) in
    ([[z]], [[z]]);
  E_out := fst;
  E_vac := snd;
  crystal_prop_indistuigishable := fun _ f _ => f;
  crystal_prop := fun _ s i _ => (s, i);
  Fourier := fun m => m;
  car2pol := fun m => m;
  G1_mat := Accum.G1_mat 1;
  Q_mat := Accum.Q_mat 1;
  G1_update := Accum.G1_update;
  Q_update := Accum.Q_update;
  acc_ii := Accum.ii;
  acc_ss := Accum.ss;
  acc_si := Accum.si;
  acc_si_dagger := Accum.si_dagger;
  G1_Normalization := fun _ => 1%R;
  unwrap_kron := Reducer.unwrap_kron 0%R;
  trace_it := fun _ _ _ => [];
  FF_position_axis := fun _ _ _ _ => [0%R; 1%R]
|}.

Definition toy_cfg_grid2 (n : nat) : @Script.Config toy_funcs_grid2 :=
  @Script.mkConfig toy_funcs_grid2 tt 1%R tt tt tt false false n 1986 1989.

(** Two-by-two accumulator matrices: Hermitian [ii] and [ss], any [si]. *)
Definition sample2_ii : cmat := [[(2%R, 0%R); (1%R, 1%R)]; [(1%R, (-1)%R); (3%R, 0%R)]].
Definition sample2_ss : cmat := [[(1%R, 0%R); (0%R, 2%R)]; [(0%R, (-2)%R); (5%R, 0%R)]].
Definition sample2_si : cmat := [[(1%R, 1%R); (2%R, 0%R)]; [(0%R, 3%R); (1%R, 0%R)]].
Definition sample2_Q_si : cmat := [[(0%R, 1%R); (1%R, 2%R)]; [(4%R, 0%R); (0%R, 0%R)]].

(* ================================================================= *)
(** * Part II: properties *)
(* ================================================================= *)

(** ** Arrays *)

Lemma nth_map_seq {B : Type} (f : nat -> B) {n i : nat} (d : B) :
  i < n -> nth i (map f (seq 0 n)) d = f i.
Proof.
  intros Hi.
  rewrite (nth_indep _ d (f 0)) by (rewrite length_map, length_seq; exact Hi).
  rewrite (map_nth f (seq 0 n) 0 i), seq_nth by exact Hi.
  reflexivity.
Qed.

Lemma nth_map_in {A B : Type} (f : A -> B) (l : list A) {i : nat} (d : A) (d' : B) :
  i < length l -> nth i (map f l) d' = f (nth i l d).
Proof.
  intros Hi. rewrite (nth_indep _ d' (f d)) by (rewrite length_map; exact Hi).
  apply map_nth.
Qed.

Lemma list_ext {A : Type} (d : A) (l1 l2 : list A) :
  length l1 = length l2 ->
  (forall i, i < length l1 -> nth i l1 d = nth i l2 d) ->
  l1 = l2.
Proof.
  revert l2; induction l1 as [|x t IH]; intros [|y t2] Hlen Hnth;
    simpl in Hlen; try discriminate; [reflexivity|].
  f_equal.
  - apply (Hnth 0); simpl; lia.
  - apply IH; [lia|].
    intros i Hi. apply (Hnth (S i)). simpl; lia.
Qed.

Lemma list_tabulate {A : Type} (d : A) (l : list A) :
  map (fun i => nth i l d) (seq 0 (length l)) = l.
Proof.
  apply (list_ext d).
  - rewrite length_map, length_seq; reflexivity.
  - intros i Hi. rewrite length_map, length_seq in Hi.
    apply (nth_map_seq (fun i => nth i l d) d Hi).
Qed.

Section ArrayFacts.
Context {A : Type}.

Lemma has_shape_row {n k : nat} {m : matrix A} (r : nat) :
  has_shape n k m -> r < n -> length (nth r m []) = k.
Proof.
  intros [Hn Hall] Hr.
  rewrite Forall_forall in Hall. apply Hall, nth_In. lia.
Qed.

Lemma has_shapeb_spec (n k : nat) (m : matrix A) :
  has_shapeb n k m = true <-> has_shape n k m.
Proof.
  unfold has_shapeb, has_shape.
  rewrite andb_true_iff, Nat.eqb_eq, forallb_forall, Forall_forall.
  split; intros [H1 H2]; split; auto; intros x Hx; apply Nat.eqb_eq; auto.
Qed.

Lemma tabulate_shape (n k : nat) (f : nat -> nat -> A) :
  has_shape n k (tabulate n k f).
Proof.
  split.
  - unfold tabulate. rewrite length_map, length_seq. reflexivity.
  - apply Forall_forall. intros row Hin.
    apply in_map_iff in Hin. destruct Hin as [r [<- _]].
    rewrite length_map, length_seq. reflexivity.
Qed.

Lemma mget_tabulate (d : A) (n k : nat) (f : nat -> nat -> A) (r c : nat) :
  r < n -> c < k -> mget d (tabulate n k f) r c = f r c.
Proof.
  intros Hr Hc. unfold mget, tabulate.
  rewrite (nth_map_seq (fun r => map (f r) (seq 0 k)) [] Hr).
  apply (nth_map_seq (f r) d Hc).
Qed.

Lemma tabulate_ext (n k : nat) (f g : nat -> nat -> A) :
  (forall r c, r < n -> c < k -> f r c = g r c) ->
  tabulate n k f = tabulate n k g.
Proof.
  intros H. unfold tabulate.
  apply map_ext_in. intros r Hr. apply in_seq in Hr.
  apply map_ext_in. intros c Hc. apply in_seq in Hc.
  apply H; lia.
Qed.

(** An array is the table of its entries. *)
Lemma tabulate_mget (d : A) {n k : nat} {m : matrix A} :
  has_shape n k m -> tabulate n k (mget d m) = m.
Proof.
  intros Hs. pose proof Hs as [Hn Hall].
  apply (list_ext []).
  - unfold tabulate. rewrite length_map, length_seq. auto.
  - intros r Hr. unfold tabulate in *. rewrite length_map, length_seq in Hr.
    rewrite (nth_map_seq (fun r => map (mget d m r) (seq 0 k)) [] Hr).
    unfold mget.
    rewrite <- (has_shape_row r Hs Hr) at 1.
    apply list_tabulate.
Qed.

(** Two arrays of one shape with the same entries are the same array. *)
Lemma matrix_ext (d : A) (n k : nat) (a b : matrix A) :
  has_shape n k a -> has_shape n k b ->
  (forall r c, r < n -> c < k -> mget d a r c = mget d b r c) ->
  a = b.
Proof.
  intros Ha Hb H.
  rewrite <- (tabulate_mget d Ha), <- (tabulate_mget d Hb).
  apply tabulate_ext, H.
Qed.

End ArrayFacts.

Section ShapeChecks.
Context {A B : Type}.

Lemma same_shapeb_of_shapes {n k : nat} {a : matrix A} {b : matrix B} :
  has_shape n k a -> has_shape n k b -> same_shapeb a b = true.
Proof.
  intros [Ha Hra] [Hb Hrb]. unfold same_shapeb.
  rewrite Ha, Hb, Nat.eqb_refl. cbn [andb].
  apply forallb_forall. intros [r1 r2] Hin. cbn [fst snd].
  rewrite Forall_forall in Hra, Hrb.
  rewrite (Hra r1 (in_combine_l _ _ _ _ Hin)), (Hrb r2 (in_combine_r _ _ _ _ Hin)).
  apply Nat.eqb_refl.
Qed.

(** An array that passes the shape check against an [n] by [k] array is
    [n] by [k]. *)
Lemma same_shapeb_shape {n k : nat} {a : matrix A} {b : matrix B} :
  same_shapeb a b = true -> has_shape n k b -> has_shape n k a.
Proof.
  unfold same_shapeb. rewrite andb_true_iff, Nat.eqb_eq, forallb_forall.
  intros [Hlen Hrows] [Hb Hrb]. split; [lia|].
  apply Forall_forall. intros r1 Hin.
  destruct (In_nth _ _ [] Hin) as [i [Hi E]].
  assert (Hi' : i < length b) by lia.
  assert (Hc : In (nth i a [], nth i b []) (combine a b)).
  { rewrite <- (combine_nth a b i [] []) by exact Hlen.
    apply nth_In. rewrite length_combine. lia. }
  apply Hrows in Hc. cbn [fst snd] in Hc. apply Nat.eqb_eq in Hc.
  rewrite <- E, Hc. rewrite Forall_forall in Hrb. apply Hrb, nth_In, Hi'.
Qed.

End ShapeChecks.

(** *** Broadcasting between arrays of one shape *)

Lemma stretch_id {X : Type} (n : nat) (l : list X) :
  length l = n -> stretch n l = l.
Proof. destruct l as [|x [|y t]]; cbn; intros <-; reflexivity. Qed.

Lemma broadcast_to_id {A : Type} {n k : nat} {m : matrix A} :
  has_shape n k m -> broadcast_to n k m = m.
Proof.
  intros [Hn Hrows]. unfold broadcast_to.
  assert (E : map (stretch k) m = m).
  { clear Hn. induction Hrows as [|r t Hr _ IH]; [reflexivity|].
    cbn [map]. rewrite (stretch_id k r Hr), IH. reflexivity. }
  rewrite E. apply stretch_id, Hn.
Qed.

Lemma shape_of_has_shape {A : Type} {n k : nat} (r : list A) (t : matrix A) :
  has_shape n k (r :: t) -> shape_of (r :: t) = Some (n, k).
Proof.
  intros [Hn Hrows]. inversion Hrows as [|r' t' Hr Ht]; subst.
  unfold shape_of.
  assert (E : forallb (fun r' => length r' =? length r) t = true).
  { apply forallb_forall. intros r' Hin. rewrite Forall_forall in Ht.
    rewrite (Ht r' Hin). apply Nat.eqb_refl. }
  rewrite E. reflexivity.
Qed.

(** On two arrays of one shape the operation of numpy is the element-wise
    one. *)
Lemma broadcast2_shape {A B C : Type} (f : A -> B -> C) {n k : nat}
      {a : matrix A} {b : matrix B} :
  has_shape n k a -> has_shape n k b -> broadcast2 f a b = Some (mmap2 f a b).
Proof.
  intros Ha Hb. pose proof Ha as [Hna _]. pose proof Hb as [Hnb _].
  destruct a as [|ra ta], b as [|rb tb]; try (cbn in Hna, Hnb; lia).
  - reflexivity.
  - unfold broadcast2.
    rewrite (shape_of_has_shape ra ta Ha), (shape_of_has_shape rb tb Hb).
    unfold bdim. rewrite !Nat.eqb_refl.
    rewrite (broadcast_to_id Ha), (broadcast_to_id Hb). reflexivity.
Qed.

Lemma mask_select_shape {A : Type} {n k : nat} {m : matrix A} {mask : matrix bool} :
  has_shape n k m -> has_shape n k mask -> mask_select m mask = Some (selected m mask).
Proof.
  intros Hm Hk. unfold mask_select.
  rewrite (same_shapeb_of_shapes Hm Hk). reflexivity.
Qed.

(** ** Reduction: the index map and its inverse *)

Section ReducerFacts.
Context {A : Type}.

Lemma t4get_tabulate4 (d : A) (M : nat) (f : nat -> nat -> nat -> nat -> A)
      (i j k l : nat) :
  i < M -> j < M -> k < M -> l < M ->
  t4get d (tabulate4 M f) i j k l = f i j k l.
Proof.
  intros Hi Hj Hk Hl. unfold t4get, tabulate4.
  rewrite (nth_map_seq _ [] Hi), (nth_map_seq _ [] Hj), (nth_map_seq _ [] Hk).
  apply (nth_map_seq _ d Hl).
Qed.

(** A flat index below M^2 splits into a pair of grid indices, and the pair
    gives the flat index back. *)
Lemma flat_index_split {M r : nat} :
  r < M ^ 2 -> r / M < M /\ r mod M < M /\ r / M * M + r mod M = r.
Proof.
  intros Hr. rewrite Nat.pow_2_r in Hr.
  assert (HM : M <> 0) by (intros ->; simpl in Hr; lia).
  repeat split.
  - apply Nat.Div0.div_lt_upper_bound; exact Hr.
  - apply Nat.mod_upper_bound; exact HM.
  - pose proof (Nat.div_mod_eq r M). lia.
Qed.

Lemma flat_index_join {M i j : nat} :
  i < M -> j < M -> i * M + j < M ^ 2 /\ (i * M + j) / M = i /\ (i * M + j) mod M = j.
Proof.
  intros Hi Hj. rewrite Nat.pow_2_r. repeat split.
  - nia.
  - rewrite Nat.div_add_l by lia. rewrite Nat.div_small by lia. lia.
  - rewrite Nat.add_comm, Nat.Div0.mod_add. apply Nat.mod_small; lia.
Qed.

(** C6. Reduction round trip: unwrapping an M^2 by M^2 array to its
    M x M x M x M form through the inverse of the flattening
    [i * M + j |-> (i, j)] and flattening it again with the same index map
    gives the array back, for every M (so for every M >= 1). *)
Theorem unwrap_rewrap_roundtrip (d : A) (M : nat) (G : matrix A) :
  has_shape (M ^ 2) (M ^ 2) G ->
  rewrap_kron d (Reducer.unwrap_kron d G M) M = G.
Proof.
  intros Hs. unfold rewrap_kron, Reducer.unwrap_kron.
  transitivity (tabulate (M ^ 2) (M ^ 2) (mget d G)); [|exact (tabulate_mget d Hs)].
  apply tabulate_ext. intros r c Hr Hc.
  destruct (flat_index_split Hr) as (Hi & Hj & Er).
  destruct (flat_index_split Hc) as (Hk & Hl & Ec).
  rewrite t4get_tabulate4 by assumption.
  rewrite Er, Ec. reflexivity.
Qed.

(** The other direction: every entry of an M x M x M x M tensor survives
    flattening and unwrapping. *)
Lemma rewrap_unwrap_entry (d : A) (M : nat) (T : tensor4 A) (i j k l : nat) :
  i < M -> j < M -> k < M -> l < M ->
  t4get d (Reducer.unwrap_kron d (rewrap_kron d T M) M) i j k l = t4get d T i j k l.
Proof.
  intros Hi Hj Hk Hl. unfold Reducer.unwrap_kron, rewrap_kron.
  rewrite t4get_tabulate4 by assumption.
  destruct (flat_index_join Hi Hj) as (Hr & Er1 & Er2).
  destruct (flat_index_join Hk Hl) as (Hc & Ec1 & Ec2).
  rewrite mget_tabulate by assumption.
  rewrite Er1, Er2, Ec1, Ec2. reflexivity.
Qed.

End ReducerFacts.

(** The round trip on a 4 by 4 array, that is M = 2. *)
Lemma unwrap_rewrap_roundtrip_witness :
  let G := tabulate 4 4 (fun r c => 10 * r + c) in
  rewrap_kron 0 (Reducer.unwrap_kron 0 G 2) 2 = G.
Proof.
  apply (@unwrap_rewrap_roundtrip nat 0 2). apply has_shapeb_spec. reflexivity.
Defined.

(** ** Strided ranges and indexed maps *)

Lemma ceil_div_step (n : nat) {s : nat} :
  0 < s ->
  (S n + s - 1) / s = (n + s - 1) / s + (if n mod s =? 0 then 1 else 0).
Proof.
  intros Hs.
  pose proof (Nat.div_mod_eq n s) as E.
  pose proof (Nat.mod_upper_bound n s ltac:(lia)) as Hlt.
  set (q := n / s) in *. set (t := n mod s) in *.
  destruct (Nat.eqb_spec t 0) as [Ht|Ht].
  - replace (S n + s - 1) with (s + q * s) by lia.
    replace (n + s - 1) with (q * s + (s - 1)) by lia.
    rewrite Nat.div_add by lia.
    rewrite Nat.div_add_l by lia.
    rewrite Nat.div_same, (Nat.div_small (s - 1)) by lia. lia.
  - replace (S n + s - 1) with ((q + 1) * s + t) by lia.
    replace (n + s - 1) with ((q + 1) * s + (t - 1)) by lia.
    rewrite !Nat.div_add_l by lia.
    rewrite !Nat.div_small by lia. lia.
Qed.

(** The multiples of the step below [n], in order, are [range(0, n, step)]. *)
Lemma filter_multiples (n : nat) {s : nat} :
  0 < s ->
  filter (fun x => x mod s =? 0) (seq 0 n) = py_range n s.
Proof.
  intros Hs. unfold py_range. induction n as [|n IH].
  - simpl. rewrite Nat.div_small by lia. reflexivity.
  - rewrite seq_S, filter_app, IH, (ceil_div_step n Hs), Nat.add_0_l.
    cbn [filter].
    destruct (Nat.eqb_spec (n mod s) 0) as [Hm|Hm].
    + rewrite Nat.add_1_r, seq_S, map_app. simpl. do 2 f_equal.
      pose proof (Nat.div_mod_eq n s) as E. rewrite Hm in E.
      replace (n + s - 1) with (n / s * s + (s - 1)) by lia.
      rewrite Nat.div_add_l, (Nat.div_small (s - 1)) by lia. lia.
    + rewrite Nat.add_0_r, app_nil_r. reflexivity.
Qed.

Lemma memb_In (x : nat) (l : list nat) : memb x l = true <-> In x l.
Proof.
  unfold memb. rewrite existsb_exists. split.
  - intros [y [Hy E]]. apply Nat.eqb_eq in E. subst. exact Hy.
  - intros H. exists x. split; [exact H|apply Nat.eqb_refl].
Qed.

Lemma memb_py_range (x n : nat) {s : nat} :
  0 < s -> memb x (py_range n s) = (x <? n) && (x mod s =? 0).
Proof.
  intros Hs. apply eq_true_iff_eq.
  rewrite memb_In, <- (filter_multiples n Hs), filter_In, in_seq.
  rewrite andb_true_iff, Nat.ltb_lt. intuition lia.
Qed.

(** With the step M + 1 there are exactly M multiples below M^2. *)
Lemma py_range_diag (M : nat) :
  py_range (M ^ 2) (M + 1) = map (fun a => a * (M + 1)) (seq 0 M).
Proof.
  unfold py_range. do 2 f_equal.
  replace (M ^ 2 + (M + 1) - 1) with (M * (M + 1)) by (rewrite Nat.pow_2_r; lia).
  apply Nat.div_mul. lia.
Qed.

Section MapiFacts.
Context {A B : Type}.

Lemma length_mapi (f : nat -> A -> B) (l : list A) : length (mapi f l) = length l.
Proof.
  unfold mapi. rewrite length_map, length_combine, length_seq. lia.
Qed.

Lemma nth_mapi (f : nat -> A -> B) (l : list A) {i : nat} (d : A) (d' : B) :
  i < length l -> nth i (mapi f l) d' = f i (nth i l d).
Proof.
  intros Hi. unfold mapi.
  rewrite (nth_indep _ d' (f 0 d))
    by (rewrite length_map, length_combine, length_seq; lia).
  rewrite (map_nth (fun p => f (fst p) (snd p)) _ (0, d) i).
  rewrite combine_nth by (rewrite length_seq; reflexivity).
  rewrite seq_nth by exact Hi. reflexivity.
Qed.

End MapiFacts.

(** ** The diagonal indicator and the extraction of the equal-mode entries *)

Section UpdateFacts.
Context {A : Type}.

Lemma index_update_strided_shape (n k rs cs : nat) (v : A) (m : matrix A) :
  has_shape n k m -> has_shape n k (index_update_strided m rs cs v).
Proof.
  intros [Hn Hall]. unfold index_update_strided. split.
  - rewrite length_mapi. exact Hn.
  - apply Forall_forall. intros row Hin.
    destruct (In_nth _ _ [] Hin) as [r [Hr E]].
    rewrite length_mapi in Hr.
    rewrite (nth_mapi _ m [] [] Hr) in E. subst row.
    assert (Hk : length (nth r m []) = k).
    { rewrite Forall_forall in Hall. apply Hall, nth_In, Hr. }
    destruct (memb r _); [rewrite length_mapi|]; exact Hk.
Qed.

Lemma mget_index_update_strided (d : A) (n k rs cs : nat) (v : A) (m : matrix A)
      (r c : nat) :
  has_shape n k m -> 0 < rs -> 0 < cs -> r < n -> c < k ->
  mget d (index_update_strided m rs cs v) r c =
  if (r mod rs =? 0) && (c mod cs =? 0) then v else mget d m r c.
Proof.
  intros Hs Hrs Hcs Hr Hc. pose proof Hs as [Hn _].
  pose proof (has_shape_row r Hs Hr) as Hk.
  assert (Hr' : r < length m) by lia.
  assert (Hc' : c < length (nth r m [])) by lia.
  unfold mget, index_update_strided.
  rewrite (nth_mapi _ m [] [] Hr').
  rewrite (memb_py_range r (length m) Hrs), Hn.
  rewrite (proj2 (Nat.ltb_lt r n) Hr). cbn [andb].
  destruct (r mod rs =? 0); cbn [andb]; [|reflexivity].
  rewrite (nth_mapi _ _ d d Hc').
  rewrite (memb_py_range c _ Hcs), Hk.
  rewrite (proj2 (Nat.ltb_lt c k) Hc). reflexivity.
Qed.

End UpdateFacts.

Lemma Kron_diag_shape (M : nat) : has_shape (M ^ 2) (M ^ 2) (Kron_diag M).
Proof. apply index_update_strided_shape, tabulate_shape. Qed.

Lemma Kron_diag_entry (M r c : nat) :
  r < M ^ 2 -> c < M ^ 2 ->
  mget 0 (Kron_diag M) r c = if on_stride M r && on_stride M c then 1 else 0.
Proof.
  intros Hr Hc. unfold Kron_diag, on_stride.
  rewrite (@mget_index_update_strided nat 0 (M ^ 2) (M ^ 2)); try lia.
  - rewrite mget_tabulate by assumption. reflexivity.
  - apply tabulate_shape.
Qed.

Section MmapFacts.
Context {A B : Type}.

Lemma mmap_shape (f : A -> B) (n k : nat) (m : matrix A) :
  has_shape n k m -> has_shape n k (mmap f m).
Proof.
  intros [Hn Hall]. unfold mmap. split.
  - rewrite length_map. exact Hn.
  - apply Forall_forall. intros row Hin. apply in_map_iff in Hin.
    destruct Hin as [row0 [<- Hin0]]. rewrite length_map.
    rewrite Forall_forall in Hall. auto.
Qed.

Lemma mget_mmap (f : A -> B) (d : A) (d' : B) {n k : nat} {m : matrix A} {r c : nat} :
  has_shape n k m -> r < n -> c < k ->
  mget d' (mmap f m) r c = f (mget d m r c).
Proof.
  intros Hs Hr Hc. pose proof Hs as [Hn _].
  pose proof (has_shape_row r Hs Hr) as Hk.
  unfold mget, mmap.
  rewrite (nth_indep _ [] (map f [])) by (rewrite length_map; lia).
  rewrite map_nth.
  rewrite (nth_indep _ d' (f d)) by (rewrite length_map; lia).
  apply map_nth.
Qed.

End MmapFacts.

Lemma Kron_mask_tabulate (M : nat) :
  Kron_mask M = tabulate (M ^ 2) (M ^ 2) (fun r c => on_stride M r && on_stride M c).
Proof.
  apply (@matrix_ext bool false (M ^ 2) (M ^ 2)).
  - apply mmap_shape, Kron_diag_shape.
  - apply tabulate_shape.
  - intros r c Hr Hc. unfold Kron_mask.
    rewrite (mget_mmap _ 0 false (Kron_diag_shape M) Hr Hc).
    rewrite Kron_diag_entry, mget_tabulate by assumption.
    destruct (on_stride M r && on_stride M c); reflexivity.
Qed.

Section SelectFacts.
Context {X A : Type}.

Lemma map2_map_map {B C : Type} (f : A -> B -> C) (g : X -> A) (h : X -> B)
      (l : list X) :
  map2 f (map g l) (map h l) = map (fun x => f (g x) (h x)) l.
Proof. induction l as [|x t IH]; simpl; [reflexivity|]. rewrite IH. reflexivity. Qed.

Lemma select_row_map (g : X -> A) (p : X -> bool) (l : list X) :
  select_row (map g l) (map p l) = map g (filter p l).
Proof.
  unfold select_row. induction l as [|x t IH]; simpl; [reflexivity|].
  destruct (p x); simpl; rewrite IH; reflexivity.
Qed.

Lemma concat_map_if (p : X -> bool) (g : X -> list A) (l : list X) :
  concat (map (fun x => if p x then g x else []) l) = concat (map g (filter p l)).
Proof.
  induction l as [|x t IH]; simpl; [reflexivity|].
  destruct (p x); simpl; rewrite IH; reflexivity.
Qed.

Lemma filter_andb_const (b : bool) (q : X -> bool) (l : list X) :
  filter (fun x => b && q x) l = if b then filter q l else [].
Proof.
  destruct b; simpl; [reflexivity|].
  induction l as [|x t IH]; simpl; auto.
Qed.

End SelectFacts.

Section ExtractFacts.
Context {A : Type}.

Lemma selected_tabulate (n k : nat) (f : nat -> nat -> A) (p : nat -> nat -> bool) :
  selected (tabulate n k f) (tabulate n k p) =
  concat (map (fun r => map (f r) (filter (p r) (seq 0 k))) (seq 0 n)).
Proof.
  unfold selected, tabulate. rewrite map2_map_map. f_equal.
  apply map_ext. intros r. apply select_row_map.
Qed.

Lemma length_ravel {n k : nat} {m : matrix A} :
  has_shape n k m -> length (ravel m) = n * k.
Proof.
  intros [Hn Hall]. subst n. unfold ravel.
  induction Hall as [|row rest Hrow _ IH]; simpl; [reflexivity|].
  rewrite length_app, IH, Hrow. reflexivity.
Qed.

Lemma rows_of_ravel (k : nat) (m : matrix A) :
  Forall (fun row => length row = k) m ->
  map (fun r => firstn k (skipn (r * k) (concat m))) (seq 0 (length m)) = m.
Proof.
  induction 1 as [|row rest Hrow Hall IH]; [reflexivity|].
  cbn [length concat]. rewrite <- cons_seq, <- seq_shift.
  cbn [map]. rewrite map_map. f_equal.
  - rewrite Nat.mul_0_l. cbn [skipn].
    rewrite firstn_app, Hrow, Nat.sub_diag, firstn_O, app_nil_r.
    rewrite <- Hrow. apply firstn_all.
  - rewrite <- IH at 2. apply map_ext. intros r.
    f_equal. cbn [Nat.mul].
    rewrite <- Hrow at 1.
    rewrite skipn_app.
    rewrite (skipn_all2 row) by lia.
    replace (length row + r * k - length row) with (r * k) by lia.
    reflexivity.
Qed.

(** Flattening an array and reshaping it to its shape gives it back. *)
Lemma reshape_ravel {n k : nat} {m : matrix A} :
  has_shape n k m -> reshape n k (ravel m) = Some m.
Proof.
  intros Hs. unfold reshape. rewrite (length_ravel Hs), Nat.eqb_refl.
  destruct Hs as [Hn Hall]. subst n. f_equal. apply rows_of_ravel, Hall.
Qed.

(** The mask picks, row by row, the entries whose two flat indices are
    multiples of M + 1. *)
Lemma selected_Kron (d : A) {M : nat} {G : matrix A} :
  has_shape (M ^ 2) (M ^ 2) G ->
  selected G (Kron_mask M) =
  ravel (tabulate M M (fun i j => mget d G (i * (M + 1)) (j * (M + 1)))).
Proof.
  intros Hs.
  rewrite <- (tabulate_mget d Hs) at 1.
  rewrite Kron_mask_tabulate, selected_tabulate.
  assert (Hf : filter (on_stride M) (seq 0 (M ^ 2)) =
               map (fun a => a * (M + 1)) (seq 0 M)).
  { unfold on_stride. rewrite (filter_multiples (M ^ 2)) by lia. apply py_range_diag. }
  rewrite (map_ext _
             (fun r => if on_stride M r
                       then map (mget d G r) (map (fun a => a * (M + 1)) (seq 0 M))
                       else []))
    by (intros r; rewrite filter_andb_const, Hf; destruct (on_stride M r); reflexivity).
  rewrite (concat_map_if (on_stride M)
             (fun r => map (mget d G r) (map (fun a => a * (M + 1)) (seq 0 M)))).
  rewrite Hf, map_map. unfold ravel, tabulate. f_equal.
  apply map_ext. intros i. rewrite map_map. reflexivity.
Qed.

End ExtractFacts.

Lemma Kron_mask_shape (M : nat) : has_shape (M ^ 2) (M ^ 2) (Kron_mask M).
Proof. apply mmap_shape, Kron_diag_shape. Qed.

(** On an M^2 by M^2 array the mask indexing succeeds. *)
Lemma mask_select_Kron {A : Type} (d : A) {M : nat} {G : matrix A} :
  has_shape (M ^ 2) (M ^ 2) G ->
  mask_select G (Kron_mask M) =
  Some (ravel (tabulate M M (fun i j => mget d G (i * (M + 1)) (j * (M + 1))))).
Proof.
  intros Hs. rewrite (mask_select_shape Hs (Kron_mask_shape M)).
  rewrite (selected_Kron d Hs). reflexivity.
Qed.

(** The mask indexing succeeds on M^2 by M^2 arrays only. *)
Lemma mask_select_Kron_inv {A : Type} (M : nat) (G : matrix A) (l : list A) :
  mask_select G (Kron_mask M) = Some l -> has_shape (M ^ 2) (M ^ 2) G.
Proof.
  unfold mask_select. destruct (same_shapeb G (Kron_mask M)) eqn:E; [|discriminate].
  intros _. exact (same_shapeb_shape E (Kron_mask_shape M)).
Qed.

(** ** The Kronecker layout of [np.kron] *)

Lemma nth_concat_uniform {A : Type} (d : A) (k : nat) (m : matrix A) (r c : nat) :
  Forall (fun row => length row = k) m -> r < length m -> c < k ->
  nth (r * k + c) (concat m) d = nth c (nth r m []) d.
Proof.
  intros Hall. revert r. induction Hall as [|row rest Hrow _ IH]; intros r Hr Hc.
  - simpl in Hr. lia.
  - cbn [concat]. destruct r as [|r].
    + cbn [Nat.mul Nat.add nth]. apply app_nth1. lia.
    + cbn [nth]. rewrite app_nth2 by (cbn [Nat.mul]; lia).
      replace (S r * k + c - length row) with (r * k + c) by (cbn [Nat.mul]; lia).
      apply IH; [simpl in Hr; lia|exact Hc].
Qed.

Lemma length_concat_uniform {A : Type} (k : nat) (m : matrix A) :
  Forall (fun row => length row = k) m -> length (concat m) = length m * k.
Proof.
  induction 1 as [|row rest Hrow _ IH]; simpl; [reflexivity|].
  rewrite length_app, IH, Hrow. reflexivity.
Qed.

Section KronFacts.
Variables (m n p q : nat) (a b : cmat).
Hypothesis Ha : has_shape m n a.
Hypothesis Hb : has_shape p q b.

Let row_block (ra : list C) : cmat :=
  map (fun rb => flat_map (fun x => map (Cmul x) rb) ra) b.

Lemma row_block_length (ra : list C) : length (row_block ra) = p.
Proof. unfold row_block. rewrite length_map. apply Hb. Qed.

Lemma kron_row_length (ra rb : list C) :
  length ra = n -> length rb = q ->
  length (flat_map (fun x => map (Cmul x) rb) ra) = n * q.
Proof.
  intros Hra Hrb. rewrite flat_map_concat_map.
  rewrite (@length_concat_uniform _ q).
  - rewrite length_map, Hra. reflexivity.
  - apply Forall_forall. intros l Hl. apply in_map_iff in Hl.
    destruct Hl as [x [<- _]]. rewrite length_map. exact Hrb.
Qed.

Lemma np_kron_shape : has_shape (m * p) (n * q) (np_kron a b).
Proof.
  destruct Ha as [Hm Hrows]. destruct Hb as [Hp Hrows'].
  rewrite Forall_forall in Hrows, Hrows'.
  unfold np_kron. rewrite flat_map_concat_map. split.
  - rewrite (@length_concat_uniform _ p).
    + rewrite length_map, Hm. reflexivity.
    + apply Forall_forall. intros blk Hblk. apply in_map_iff in Hblk.
      destruct Hblk as [ra [<- _]]. apply row_block_length.
  - apply Forall_forall. intros row Hrow.
    apply in_concat in Hrow. destruct Hrow as [blk [Hblk Hrow]].
    apply in_map_iff in Hblk. destruct Hblk as [ra [<- Hra]].
    apply in_map_iff in Hrow. destruct Hrow as [rb [<- Hrb]].
    apply kron_row_length; auto.
Qed.

(** The entry of the product at row [i * p + k] and column [j * q + l] is
    [a[i][j] * b[k][l]]. *)
Lemma mget_np_kron (i j k l : nat) :
  i < m -> j < n -> k < p -> l < q ->
  mget C0 (np_kron a b) (i * p + k) (j * q + l)
  = Cmul (mget C0 a i j) (mget C0 b k l).
Proof.
  intros Hi Hj Hk Hl.
  pose proof (has_shape_row i Ha Hi) as Hrow_a.
  pose proof (has_shape_row k Hb Hk) as Hrow_b.
  destruct Ha as [Hm _]. destruct Hb as [Hp _].
  assert (Hi' : i < length a) by lia.
  assert (Hk' : k < length b) by lia.
  assert (Hj' : j < length (nth i a [])) by lia.
  assert (Hl' : l < length (nth k b [])) by lia.
  unfold mget, np_kron. rewrite flat_map_concat_map.
  rewrite (@nth_concat_uniform _ _ p).
  - rewrite (nth_map_in _ a [] [] Hi'), (nth_map_in _ b [] [] Hk').
    rewrite flat_map_concat_map.
    rewrite (@nth_concat_uniform _ _ q).
    + rewrite (nth_map_in _ _ C0 [] Hj').
      apply (nth_map_in _ _ C0 C0 Hl').
    + apply Forall_forall. intros r Hr. apply in_map_iff in Hr.
      destruct Hr as [x [<- _]]. rewrite length_map. exact Hrow_b.
    + rewrite length_map. lia.
    + exact Hl.
  - apply Forall_forall. intros blk Hblk. apply in_map_iff in Hblk.
    destruct Hblk as [ra [<- _]]. apply row_block_length.
  - rewrite length_map. lia.
  - exact Hk.
Qed.

End KronFacts.

(** ** The equal-mode diagonal *)

(** Under the Kronecker layout the row [i * M + k] is a multiple of M + 1
    exactly when the two indices it encodes agree. *)
Lemma on_stride_kron (M i k : nat) :
  i < M -> k < M -> on_stride M (i * M + k) = (i =? k).
Proof.
  intros Hi Hk. unfold on_stride.
  destruct (Nat.le_gt_cases i k) as [Hle|Hgt].
  - replace (i * M + k) with ((k - i) + i * (M + 1)) by nia.
    rewrite Nat.Div0.mod_add, Nat.mod_small by lia.
    destruct (Nat.eqb_spec (k - i) 0), (Nat.eqb_spec i k); try reflexivity; lia.
  - replace (i * M + k) with ((M + 1 - (i - k)) + (i - 1) * (M + 1)) by nia.
    rewrite Nat.Div0.mod_add, Nat.mod_small by lia.
    destruct (Nat.eqb_spec (M + 1 - (i - k)) 0), (Nat.eqb_spec i k);
      try reflexivity; lia.
Qed.

Lemma on_stride_divide (M r : nat) :
  on_stride M r = true <-> Nat.divide (M + 1) r.
Proof.
  unfold on_stride. rewrite Nat.eqb_eq. apply Nat.Lcm0.mod_divide.
Qed.

(** Masking with the indicator and reshaping agrees with the loop. *)
Lemma diag_extract_P_loop {A : Type} (d : A) {M : nat} {G : matrix A} :
  has_shape (M ^ 2) (M ^ 2) G -> diag_extract M G = Some (P_loop d M G).
Proof.
  intros Hs. unfold diag_extract. rewrite (mask_select_Kron d Hs). cbn [obind].
  rewrite (reshape_ravel (tabulate_shape M M _)). f_equal.
  apply tabulate_ext. intros i j _ _. unfold kron_entry.
  f_equal; lia.
Qed.

(** C8. The diagonal indicator [Kron_diag] is an M^2 by M^2 matrix of zeros
    and ones; its ones are exactly the positions (r, c) with r and c both
    multiples of M + 1, which under the Kronecker layout (row [i * M + k],
    column [j * M + l]) are exactly the positions with (i, j) = (k, l).
    Selecting the entries of an M^2 by M^2 array [G] where the indicator is
    not zero and reshaping them to M by M succeeds and gives, at (i, j), the
    equal-mode entry [G1[i, j, i, j]] that the loop over the grid indices
    computes. *)
Theorem Kron_diag_extracts_equal_modes {A : Type} (d : A) (M : nat) (G : matrix A) :
  has_shape (M ^ 2) (M ^ 2) G ->
  has_shape (M ^ 2) (M ^ 2) (Kron_diag M) /\
  (forall r c, r < M ^ 2 -> c < M ^ 2 ->
     (mget 0 (Kron_diag M) r c = 1 /\ Nat.divide (M + 1) r /\ Nat.divide (M + 1) c) \/
     (mget 0 (Kron_diag M) r c = 0 /\
      ~ (Nat.divide (M + 1) r /\ Nat.divide (M + 1) c))) /\
  (forall i j k l, i < M -> j < M -> k < M -> l < M ->
     mget 0 (Kron_diag M) (i * M + k) (j * M + l) =
     if (i =? k) && (j =? l) then 1 else 0) /\
  diag_extract M G = Some (P_loop d M G) /\
  (forall i j, i < M -> j < M ->
     mget d (P_loop d M G) i j = kron_entry d M G i j i j).
Proof.
  intros Hs. split; [apply Kron_diag_shape|]. split; [|split; [|split]].
  - intros r c Hr Hc. rewrite Kron_diag_entry by assumption.
    rewrite <- !on_stride_divide.
    destruct (on_stride M r), (on_stride M c); cbn [andb];
      first [left; repeat split; reflexivity
            |right; split; [reflexivity|intros [H1 H2]; discriminate]].
  - intros i j k l Hi Hj Hk Hl.
    destruct (flat_index_join Hi Hk) as (Hr & _).
    destruct (flat_index_join Hj Hl) as (Hc & _).
    rewrite Kron_diag_entry by assumption.
    rewrite !on_stride_kron by assumption. reflexivity.
  - apply diag_extract_P_loop, Hs.
  - intros i j Hi Hj.
    exact (mget_tabulate d M M (fun i j => kron_entry d M G i j i j) i j Hi Hj).
Qed.

(** The extraction on a 4 by 4 array (M = 2): the entries at rows and
    columns 0 and 3. *)
Lemma Kron_diag_extracts_equal_modes_witness :
  let G := tabulate 4 4 (fun r c => 10 * r + c) in
  diag_extract 2 G = Some [[0; 3]; [30; 33]].
Proof.
  intros G.
  assert (Hs : has_shape (2 ^ 2) (2 ^ 2) G) by (apply has_shapeb_spec; reflexivity).
  exact (proj1 (proj2 (proj2 (proj2 (Kron_diag_extracts_equal_modes 0 2 G Hs))))).
Defined.

(** Under the row flattening of [Reducer.unwrap_kron] (row [i * M + j],
    column [k * M + l]) the same position is the entry (i, i, j, j): the
    indicator is tied to the Kronecker layout. *)
Lemma extracted_entry_row_layout {A : Type} (d : A) (M : nat) (G : matrix A)
      (i j : nat) :
  i < M -> j < M ->
  t4get d (Reducer.unwrap_kron d G M) i i j j
  = mget d G (i * (M + 1)) (j * (M + 1)).
Proof.
  intros Hi Hj. unfold Reducer.unwrap_kron.
  rewrite t4get_tabulate4 by assumption. f_equal; lia.
Qed.

(** For a Kronecker product of two M by M arrays the extracted entry (i, j)
    is the product of the two factors at the same grid point (i, j). *)
Lemma diag_extract_np_kron (M : nat) (a b : cmat) :
  has_shape M M a -> has_shape M M b ->
  diag_extract M (np_kron a b) =
  Some (tabulate M M (fun i j => Cmul (mget C0 a i j) (mget C0 b i j))).
Proof.
  intros Ha Hb.
  pose proof (@np_kron_shape M M M M a b Ha Hb) as Hs. rewrite <- !Nat.pow_2_r in Hs.
  rewrite (diag_extract_P_loop C0 Hs). f_equal. apply tabulate_ext. intros i j Hi Hj.
  unfold kron_entry. apply (@mget_np_kron M M M M a b Ha Hb); assumption.
Qed.

(** ** Element-wise arithmetic *)

Lemma length_map2 {A B C' : Type} (f : A -> B -> C') (l1 : list A) (l2 : list B) :
  length l1 = length l2 -> length (map2 f l1 l2) = length l1.
Proof.
  revert l2; induction l1 as [|x t IH]; intros [|y t2] H; simpl in *;
    try discriminate; [reflexivity|].
  f_equal. apply IH. lia.
Qed.

Lemma nth_map2 {A B C' : Type} (f : A -> B -> C') (l1 : list A) (l2 : list B) (i : nat)
      (d1 : A) (d2 : B) (d : C') :
  length l1 = length l2 -> i < length l1 ->
  nth i (map2 f l1 l2) d = f (nth i l1 d1) (nth i l2 d2).
Proof.
  revert l2 i; induction l1 as [|x t IH]; intros [|y t2] i H Hi; simpl in *;
    try discriminate; try lia.
  destruct i as [|i]; [reflexivity|]. apply IH; lia.
Qed.

Section Map2Facts.
Context {A B C' : Type}.

Lemma mmap2_shape (f : A -> B -> C') (n k : nat) (a : matrix A) (b : matrix B) :
  has_shape n k a -> has_shape n k b -> has_shape n k (mmap2 f a b).
Proof.
  intros Ha Hb. pose proof Ha as [Hn _]. pose proof Hb as [Hn' _].
  unfold mmap2. split.
  - rewrite length_map2; lia.
  - apply Forall_forall. intros row Hin.
    destruct (In_nth _ _ [] Hin) as [r [Hr E]].
    rewrite length_map2 in Hr by lia.
    rewrite (nth_map2 (map2 f) a b r [] [] [] ltac:(lia) Hr) in E. subst row.
    rewrite length_map2.
    + apply (has_shape_row r Ha). lia.
    + rewrite (has_shape_row r Ha), (has_shape_row r Hb); lia.
Qed.

Lemma mget_mmap2 (f : A -> B -> C') (d1 : A) (d2 : B) (d : C') {n k : nat}
      {a : matrix A} {b : matrix B} {r c : nat} :
  has_shape n k a -> has_shape n k b -> r < n -> c < k ->
  mget d (mmap2 f a b) r c = f (mget d1 a r c) (mget d2 b r c).
Proof.
  intros Ha Hb Hr Hc. pose proof Ha as [Hn _]. pose proof Hb as [Hn' _].
  pose proof (has_shape_row r Ha Hr) as Hka.
  pose proof (has_shape_row r Hb Hr) as Hkb.
  unfold mget, mmap2.
  rewrite (nth_map2 (map2 f) a b r [] [] []) by lia.
  apply nth_map2; lia.
Qed.

End Map2Facts.

(** A function that commutes with the operation commutes with it
    element-wise, whatever the shapes. *)
Lemma map2_map_distr {A B : Type} (f : B -> B -> B) (g : A -> A -> A) (h : A -> B)
      (l1 l2 : list A) :
  (forall x y, f (h x) (h y) = h (g x y)) ->
  map2 f (map h l1) (map h l2) = map h (map2 g l1 l2).
Proof.
  intros H. revert l2; induction l1 as [|x t IH]; intros [|y t2]; simpl;
    try reflexivity.
  rewrite H, IH. reflexivity.
Qed.

Lemma mmap2_mmap_distr {A B : Type} (f : B -> B -> B) (g : A -> A -> A) (h : A -> B)
      (a b : matrix A) :
  (forall x y, f (h x) (h y) = h (g x y)) ->
  mmap2 f (mmap h a) (mmap h b) = mmap h (mmap2 g a b).
Proof.
  intros H. unfold mmap2, mmap.
  apply (map2_map_distr (map2 f) (map2 g) (map h)).
  intros x y. apply map2_map_distr, H.
Qed.

(** ** Complex arithmetic *)

Lemma Cadd_Cdivr (x y : C) (n : R) :
  Cadd (Cdivr x n) (Cdivr y n) = Cdivr (Cadd x y) n.
Proof.
  destruct x as [a b], y as [c e]. unfold Cadd, Cdivr, Cre, Cim. simpl.
  f_equal; unfold Rdiv; ring.
Qed.

Lemma Cdivr_C0 (n : R) : Cdivr C0 n = C0.
Proof. unfold Cdivr, C0, Cre, Cim. simpl. f_equal; unfold Rdiv; ring. Qed.

Lemma Cconj_invol (z : C) : Cconj (Cconj z) = z.
Proof. destruct z as [a b]. unfold Cconj, Cre, Cim. simpl. f_equal. ring. Qed.

Lemma Cconj_add (x y : C) : Cconj (Cadd x y) = Cadd (Cconj x) (Cconj y).
Proof.
  destruct x as [a b], y as [c e]. unfold Cconj, Cadd, Cre, Cim. simpl.
  f_equal. ring.
Qed.

Lemma Cconj_mul (x y : C) : Cconj (Cmul x y) = Cmul (Cconj x) (Cconj y).
Proof.
  destruct x as [a b], y as [c e]. unfold Cconj, Cmul, Cre, Cim. simpl.
  f_equal; ring.
Qed.

Lemma Cconj_divr (x : C) (n : R) : Cconj (Cdivr x n) = Cdivr (Cconj x) n.
Proof.
  destruct x as [a b]. unfold Cconj, Cdivr, Cre, Cim. simpl.
  f_equal. unfold Rdiv. ring.
Qed.

Lemma Cmul_comm (x y : C) : Cmul x y = Cmul y x.
Proof.
  destruct x as [a b], y as [c e]. unfold Cmul, Cre, Cim. simpl. f_equal; ring.
Qed.

Lemma Cconj_C0 : Cconj C0 = C0.
Proof. unfold Cconj, C0, Cre, Cim. simpl. f_equal. ring. Qed.

(** [conj(z) * z] is the squared modulus: real and not negative. *)
Lemma Cmul_conj_self (z : C) :
  Cim (Cmul (Cconj z) z) = 0%R /\ (0 <= Cre (Cmul (Cconj z) z))%R.
Proof.
  destruct z as [a b]. unfold Cmul, Cconj, Cre, Cim. simpl. split; [ring|].
  pose proof (Rle_0_sqr a). pose proof (Rle_0_sqr b). unfold Rsqr in *. lra.
Qed.

(** ** Shapes and entries of the array operations *)

Lemma zeros_shape (n k : nat) : has_shape n k (zeros n k).
Proof. apply tabulate_shape. Qed.

Lemma outer_shape (u v : list C) : has_shape (length u) (length v) (outer u v).
Proof.
  unfold outer. split.
  - apply length_map.
  - apply Forall_forall. intros row Hin. apply in_map_iff in Hin.
    destruct Hin as [x [<- _]]. apply length_map.
Qed.

Lemma mget_outer (u v : list C) (r c : nat) :
  r < length u -> c < length v ->
  mget C0 (outer u v) r c = Cmul (nth r u C0) (nth c v C0).
Proof.
  intros Hr Hc. unfold mget, outer.
  rewrite (nth_map_in _ u C0 [] Hr).
  apply (nth_map_in _ v C0 C0 Hc).
Qed.

Lemma ravel_mmap {A B : Type} (f : A -> B) (m : matrix A) :
  ravel (mmap f m) = map f (ravel m).
Proof. unfold ravel, mmap. symmetry. apply concat_map. Qed.

Lemma transpose_shape {A : Type} (d : A) {n : nat} {a : matrix A} :
  has_shape n n a -> has_shape n n (transpose d a).
Proof.
  intros Hs. pose proof Hs as [Hn Hall]. unfold transpose.
  assert (Hhd : length (hd [] a) = n).
  { destruct a as [|row rest]; [exact Hn|].
    apply (Forall_inv Hall). }
  rewrite Hhd. split.
  - rewrite length_map, length_seq. reflexivity.
  - apply Forall_forall. intros row Hin. apply in_map_iff in Hin.
    destruct Hin as [c [<- _]]. rewrite length_map. exact Hn.
Qed.

Lemma mget_transpose {A : Type} (d : A) {n : nat} {a : matrix A} {r c : nat} :
  has_shape n n a -> r < n -> c < n ->
  mget d (transpose d a) r c = mget d a c r.
Proof.
  intros Hs Hr Hc. pose proof Hs as [Hn Hall]. unfold transpose, mget.
  assert (Hhd : length (hd [] a) = n).
  { destruct a as [|row rest]; [exact Hn|].
    apply (Forall_inv Hall). }
  rewrite Hhd, (nth_map_seq _ [] Hr).
  assert (Hc' : c < length a) by lia.
  exact (nth_map_in (fun row => nth r row d) a [] d Hc').
Qed.

Lemma dagger_shape {n : nat} {a : cmat} :
  has_shape n n a -> has_shape n n (dagger a).
Proof. intros Hs. apply mmap_shape, transpose_shape, Hs. Qed.

Lemma mget_dagger (n : nat) (a : cmat) (r c : nat) :
  has_shape n n a -> r < n -> c < n ->
  mget C0 (dagger a) r c = Cconj (mget C0 a c r).
Proof.
  intros Hs Hr Hc. unfold dagger, mconj.
  rewrite (mget_mmap Cconj C0 C0 (transpose_shape C0 Hs) Hr Hc).
  rewrite (mget_transpose C0 Hs Hr Hc). reflexivity.
Qed.

Lemma madd_shape {n k : nat} {a b : cmat} :
  has_shape n k a -> has_shape n k b -> has_shape n k (madd a b).
Proof. apply mmap2_shape. Qed.

Lemma mget_madd {n k : nat} {a b : cmat} {r c : nat} :
  has_shape n k a -> has_shape n k b -> r < n -> c < k ->
  mget C0 (madd a b) r c = Cadd (mget C0 a r c) (mget C0 b r c).
Proof. apply mget_mmap2. Qed.

Lemma mget_mmul {n k : nat} {a b : cmat} {r c : nat} :
  has_shape n k a -> has_shape n k b -> r < n -> c < k ->
  mget C0 (mmul a b) r c = Cmul (mget C0 a r c) (mget C0 b r c).
Proof. apply mget_mmap2. Qed.

Lemma mdivr_shape {n k : nat} {a : cmat} (x : R) :
  has_shape n k a -> has_shape n k (mdivr a x).
Proof. apply mmap_shape. Qed.

Lemma mget_mdivr {n k : nat} {a : cmat} {r c : nat} (x : R) :
  has_shape n k a -> r < n -> c < k ->
  mget C0 (mdivr a x) r c = Cdivr (mget C0 a r c) x.
Proof. intros Hs Hr Hc. exact (mget_mmap (fun z => Cdivr z x) C0 C0 Hs Hr Hc). Qed.

Lemma madd_mdivr (a b : cmat) (x : R) :
  madd (mdivr a x) (mdivr b x) = mdivr (madd a b) x.
Proof.
  apply (mmap2_mmap_distr Cadd Cadd (fun z => Cdivr z x)).
  intros y z. apply Cadd_Cdivr.
Qed.

Lemma mdivr_zeros (n k : nat) (x : R) : mdivr (zeros n k) x = zeros n k.
Proof.
  unfold mdivr, zeros, mmap, tabulate. rewrite map_map.
  apply map_ext. intros r. rewrite map_map.
  apply map_ext. intros c. apply Cdivr_C0.
Qed.

(** ** Correlation accumulators *)

Section AccumFacts.
Variables f_ii f_ss f_si : Trial -> cmat.

Lemma updates_snoc (a : Accum.Acc) (ts : list Trial) (t : Trial) (N : nat) :
  Accum.updates f_ii f_ss f_si a (ts ++ [t]) N =
  Accum.acc_update f_ii f_ss f_si (Accum.updates f_ii f_ss f_si a ts N) t N.
Proof. unfold Accum.updates. rewrite fold_left_app. reflexivity. Qed.

Lemma msum_snoc (n k : nat) (l : list cmat) (x : cmat) :
  msum n k (l ++ [x]) = madd (msum n k l) x.
Proof. unfold msum. rewrite fold_left_app. reflexivity. Qed.

(** After the trials of [ts] each running matrix is the sum of their outer
    products divided by the [N] handed to [update]. *)
Lemma updates_sum (M N : nat) (ts : list Trial) :
  let a := Accum.updates f_ii f_ss f_si (Accum.acc_init M) ts N in
  Accum.ii a = Accum.sum_over (M ^ 2) f_ii ts (INR N) /\
  Accum.ss a = Accum.sum_over (M ^ 2) f_ss ts (INR N) /\
  Accum.si a = Accum.sum_over (M ^ 2) f_si ts (INR N).
Proof.
  induction ts as [|t ts IH] using rev_ind.
  - unfold Accum.sum_over, Accum.updates, msum, Accum.acc_init.
    cbn [fold_left map Accum.ii Accum.ss Accum.si].
    rewrite mdivr_zeros. auto.
  - cbv zeta in *. destruct IH as (Hii & Hss & Hsi).
    rewrite updates_snoc. unfold Accum.sum_over in *.
    rewrite !map_app. cbn [map]. rewrite !msum_snoc, <- !madd_mdivr.
    cbn [Accum.acc_update Accum.ii Accum.ss Accum.si].
    rewrite Hii, Hss, Hsi. auto.
Qed.

(** One update keeps the matrices M^2 by M^2 when the outer products are. *)
Lemma acc_update_shape (n : nat) (a : Accum.Acc) (t : Trial) (N : nat) :
  has_shape n n (f_ii t) -> has_shape n n (f_ss t) -> has_shape n n (f_si t) ->
  Accum.acc_shape n a ->
  Accum.acc_shape n (Accum.acc_update f_ii f_ss f_si a t N).
Proof.
  intros Hii Hss Hsi (Ha & Hb & Hc & _).
  assert (Hadd : forall x y, has_shape n n x -> has_shape n n y ->
                        has_shape n n (madd x (mdivr y (INR N)))).
  { intros x y Hx Hy. apply madd_shape; [exact Hx|apply mdivr_shape, Hy]. }
  unfold Accum.acc_shape, Accum.acc_update.
  cbn [Accum.ii Accum.ss Accum.si Accum.si_dagger].
  split; [|split; [|split]]; try apply dagger_shape; apply Hadd; assumption.
Qed.

End AccumFacts.

Lemma acc_init_shape (M : nat) : Accum.acc_shape (M ^ 2) (Accum.acc_init M).
Proof. split; [|split; [|split]]; apply zeros_shape. Qed.

Lemma pair_outer_shape {M : nat} {u v : cmat} :
  has_shape M M u -> has_shape M M v ->
  has_shape (M ^ 2) (M ^ 2) (Accum.pair_outer u v).
Proof.
  intros Hu Hv. unfold Accum.pair_outer.
  pose proof (outer_shape (ravel u) (ravel v)) as H.
  rewrite (length_ravel Hu), (length_ravel Hv), <- Nat.pow_2_r in H. exact H.
Qed.

Lemma mconj_shape {n k : nat} {a : cmat} : has_shape n k a -> has_shape n k (mconj a).
Proof. apply mmap_shape. Qed.

Lemma G1_outer_shapes (M : nat) (t : Trial) :
  Accum.trial_shape M t ->
  has_shape (M ^ 2) (M ^ 2) (Accum.G1_ii t) /\
  has_shape (M ^ 2) (M ^ 2) (Accum.G1_ss t) /\
  has_shape (M ^ 2) (M ^ 2) (Accum.G1_si t).
Proof.
  intros (Hso & Hsv & Hio & Hiv).
  split; [|split]; apply pair_outer_shape; try apply mconj_shape; assumption.
Qed.

Lemma Q_outer_shapes (M : nat) (t : Trial) :
  Accum.trial_shape M t ->
  has_shape (M ^ 2) (M ^ 2) (Accum.Q_ii t) /\
  has_shape (M ^ 2) (M ^ 2) (Accum.Q_ss t) /\
  has_shape (M ^ 2) (M ^ 2) (Accum.Q_si t).
Proof.
  intros (Hso & Hsv & Hio & Hiv).
  split; [|split]; apply pair_outer_shape; assumption.
Qed.

Lemma updates_shape (f_ii f_ss f_si : Trial -> cmat) (M N : nat) (ts : list Trial) :
  (forall t, Accum.trial_shape M t ->
     has_shape (M ^ 2) (M ^ 2) (f_ii t) /\
     has_shape (M ^ 2) (M ^ 2) (f_ss t) /\
     has_shape (M ^ 2) (M ^ 2) (f_si t)) ->
  Forall (Accum.trial_shape M) ts ->
  Accum.acc_shape (M ^ 2) (Accum.updates f_ii f_ss f_si (Accum.acc_init M) ts N).
Proof.
  intros Hf. induction ts as [|t ts IH] using rev_ind; intros Hall.
  - apply acc_init_shape.
  - rewrite updates_snoc. apply Forall_app in Hall. destruct Hall as [Hts Ht].
    destruct (Hf t (Forall_inv Ht)) as (H1 & H2 & H3).
    apply acc_update_shape; auto.
Qed.

(** The state after a call of [update] has [si_dagger] the conjugate
    transpose of [si], entry by entry. *)
Lemma acc_update_dagger (f_ii f_ss f_si : Trial -> cmat) (n : nat) (a : Accum.Acc)
      (t : Trial) (N : nat) :
  has_shape n n (f_si t) -> has_shape n n (Accum.si a) ->
  let a' := Accum.acc_update f_ii f_ss f_si a t N in
  Accum.si_dagger a' = dagger (Accum.si a') /\
  forall r c, r < n -> c < n ->
    mget C0 (Accum.si_dagger a') r c = Cconj (mget C0 (Accum.si a') c r).
Proof.
  intros Hf Ha a'. split; [reflexivity|].
  intros r c Hr Hc. subst a'. cbn [Accum.acc_update Accum.si_dagger Accum.si].
  apply (mget_dagger n); try assumption.
  apply madd_shape; [assumption|apply mdivr_shape; assumption].
Qed.

Lemma mkTrial_eta (t : Trial) :
  mkTrial (t_s_out t) (t_s_vac t) (t_i_out t) (t_i_vac t) = t.
Proof. destruct t; reflexivity. Qed.

(** C4. After every call of [update] on a G1 or a Q accumulator (the call
    that follows any number of earlier ones on a fresh accumulator, the fields
    being M by M), each of [ii], [ss], [si], [si_dagger] is M^2 by M^2 and
    [si_dagger] is exactly the conjugate transpose of [si]. *)
Theorem update_keeps_shape_and_dagger (M N : nat) (ts : list Trial) (t : Trial) :
  Forall (Accum.trial_shape M) ts -> Accum.trial_shape M t ->
  let g := Accum.G1_update
             (Accum.updates Accum.G1_ii Accum.G1_ss Accum.G1_si (Accum.G1_mat M) ts N)
             (t_s_out t) (t_s_vac t) (t_i_out t) (t_i_vac t) N in
  let q := Accum.Q_update
             (Accum.updates Accum.Q_ii Accum.Q_ss Accum.Q_si (Accum.Q_mat M) ts N)
             (t_s_out t) (t_s_vac t) (t_i_out t) (t_i_vac t) N in
  (Accum.acc_shape (M ^ 2) g /\
   Accum.si_dagger g = dagger (Accum.si g) /\
   forall r c, r < M ^ 2 -> c < M ^ 2 ->
     mget C0 (Accum.si_dagger g) r c = Cconj (mget C0 (Accum.si g) c r)) /\
  (Accum.acc_shape (M ^ 2) q /\
   Accum.si_dagger q = dagger (Accum.si q) /\
   forall r c, r < M ^ 2 -> c < M ^ 2 ->
     mget C0 (Accum.si_dagger q) r c = Cconj (mget C0 (Accum.si q) c r)).
Proof.
  intros Hts Ht g q. subst g q. unfold Accum.G1_update, Accum.Q_update.
  rewrite mkTrial_eta.
  pose proof (updates_shape Accum.G1_ii Accum.G1_ss Accum.G1_si M N ts
                (G1_outer_shapes M) Hts) as Hg.
  pose proof (updates_shape Accum.Q_ii Accum.Q_ss Accum.Q_si M N ts
                (Q_outer_shapes M) Hts) as Hq.
  destruct (G1_outer_shapes M t Ht) as (G1 & G2 & G3).
  destruct (Q_outer_shapes M t Ht) as (Q1 & Q2 & Q3).
  split.
  - split; [apply acc_update_shape; assumption|].
    apply acc_update_dagger; [exact G3|apply Hg].
  - split; [apply acc_update_shape; assumption|].
    apply acc_update_dagger; [exact Q3|apply Hq].
Qed.

(** ** Hermiticity *)

Lemma hermitian_of_entries {n : nat} {a : cmat} :
  has_shape n n a ->
  (forall r c, r < n -> c < n -> mget C0 a r c = Cconj (mget C0 a c r)) ->
  Accum.hermitian a.
Proof.
  intros Hs H. unfold Accum.hermitian.
  apply (@matrix_ext C C0 n n); [apply dagger_shape, Hs|exact Hs|].
  intros r c Hr Hc. rewrite (mget_dagger n) by assumption.
  symmetry. apply H; assumption.
Qed.

Lemma hermitian_entry {n : nat} {a : cmat} {r c : nat} :
  has_shape n n a -> Accum.hermitian a -> r < n -> c < n ->
  mget C0 a r c = Cconj (mget C0 a c r).
Proof.
  intros Hs H Hr Hc. unfold Accum.hermitian in H.
  rewrite <- H at 1. apply (mget_dagger n); assumption.
Qed.

Lemma hermitian_zeros (n : nat) : Accum.hermitian (zeros n n).
Proof.
  apply (hermitian_of_entries (zeros_shape n n)).
  intros r c Hr Hc. unfold zeros. rewrite !mget_tabulate by assumption.
  symmetry. apply Cconj_C0.
Qed.

Lemma hermitian_madd {n : nat} {a b : cmat} :
  has_shape n n a -> has_shape n n b ->
  Accum.hermitian a -> Accum.hermitian b -> Accum.hermitian (madd a b).
Proof.
  intros Ha Hb Hha Hhb.
  apply (hermitian_of_entries (madd_shape Ha Hb)).
  intros r c Hr Hc.
  rewrite (mget_madd Ha Hb Hr Hc), (mget_madd Ha Hb Hc Hr), Cconj_add.
  rewrite <- (hermitian_entry Ha Hha Hr Hc), <- (hermitian_entry Hb Hhb Hr Hc).
  reflexivity.
Qed.

(** The outer product of a vector with itself, one side conjugated, is
    Hermitian, also after the division by N. *)
Lemma hermitian_self_outer (M : nat) (v : cmat) (x : R) :
  has_shape M M v ->
  Accum.hermitian (mdivr (Accum.pair_outer (mconj v) v) x).
Proof.
  intros Hv.
  pose proof (pair_outer_shape (mconj_shape Hv) Hv) as Hs.
  apply (hermitian_of_entries (mdivr_shape x Hs)).
  intros r c Hr Hc.
  rewrite (mget_mdivr x Hs Hr Hc), (mget_mdivr x Hs Hc Hr).
  unfold Accum.pair_outer, mconj. rewrite ravel_mmap.
  assert (Hlen : length (ravel v) = M ^ 2)
    by (rewrite (length_ravel Hv), Nat.pow_2_r; reflexivity).
  rewrite !mget_outer by (rewrite ?length_map; lia).
  rewrite !(nth_map_in Cconj (ravel v) C0 C0) by lia.
  rewrite Cconj_divr, Cconj_mul, Cconj_invol. f_equal. apply Cmul_comm.
Qed.

(** C5. Hermiticity: after any number (zero included) of completed updates
    with M by M fields, G1's [ii] and [ss] equal their conjugate transpose. *)
Theorem G1_ii_ss_hermitian (M N : nat) (ts : list Trial) :
  Forall (Accum.trial_shape M) ts ->
  let g := Accum.updates Accum.G1_ii Accum.G1_ss Accum.G1_si (Accum.G1_mat M) ts N in
  Accum.hermitian (Accum.ii g) /\ Accum.hermitian (Accum.ss g).
Proof.
  induction ts as [|t ts IH] using rev_ind; intros Hall.
  - split; apply hermitian_zeros.
  - cbv zeta in *. apply Forall_app in Hall. destruct Hall as [Hts Ht].
    apply Forall_inv in Ht. destruct (IH Hts) as [Hii Hss].
    pose proof (updates_shape Accum.G1_ii Accum.G1_ss Accum.G1_si M N ts
                  (G1_outer_shapes M) Hts) as (Sii & Sss & _).
    destruct (G1_outer_shapes M t Ht) as (G1 & G2 & _).
    destruct Ht as (_ & Hsv & _ & Hiv).
    unfold Accum.G1_mat in *. rewrite updates_snoc.
    cbn [Accum.acc_update Accum.ii Accum.ss].
    split; apply (@hermitian_madd (M ^ 2)); try assumption;
      try (apply mdivr_shape; assumption);
      apply (hermitian_self_outer M); assumption.
Qed.

(** ** The running matrices are sums over N, not running means *)

Lemma unit_trial_shape : Accum.trial_shape 1 unit_trial.
Proof. repeat split; repeat constructor. Qed.

(** After one of two trials (k = 1, N = 2) G1's [ii] is half the outer
    product of the trial, not the mean over the one trial processed. *)
Lemma running_mean_fails_before_N :
  Accum.ii (Accum.G1_update (Accum.G1_mat 1) one_field one_field one_field one_field 2)
  <> Accum.mean_over (1 ^ 2) Accum.G1_ii [unit_trial].
Proof.
  cbv [Accum.ii Accum.G1_update Accum.G1_mat Accum.acc_init Accum.acc_update
       Accum.mean_over Accum.sum_over Accum.G1_ii Accum.pair_outer msum
       unit_trial one_field t_i_vac mconj mmap ravel concat app outer map
       madd mmap2 map2 mdivr zeros tabulate seq Nat.pow Nat.mul Nat.add
       fold_left length INR Cadd Cmul Cconj Cdivr C0 Cre Cim fst snd].
  intros H. injection H as H _. lra.
Qed.

(** C2, as the code has it.  After [k] calls of [update] with the argument
    [N] (any [k], any [N]) each of [ii], [ss], [si] of G1 and of Q is the sum
    of the [k] outer products of its field pair divided by [N]; it is their
    arithmetic mean when [k = N]. *)
Theorem accumulators_sum_over_N (M N : nat) (ts : list Trial) :
  let g := Accum.updates Accum.G1_ii Accum.G1_ss Accum.G1_si (Accum.G1_mat M) ts N in
  let q := Accum.updates Accum.Q_ii Accum.Q_ss Accum.Q_si (Accum.Q_mat M) ts N in
  (Accum.ii g = Accum.sum_over (M ^ 2) Accum.G1_ii ts (INR N) /\
   Accum.ss g = Accum.sum_over (M ^ 2) Accum.G1_ss ts (INR N) /\
   Accum.si g = Accum.sum_over (M ^ 2) Accum.G1_si ts (INR N)) /\
  (Accum.ii q = Accum.sum_over (M ^ 2) Accum.Q_ii ts (INR N) /\
   Accum.ss q = Accum.sum_over (M ^ 2) Accum.Q_ss ts (INR N) /\
   Accum.si q = Accum.sum_over (M ^ 2) Accum.Q_si ts (INR N)) /\
  (length ts = N ->
   (Accum.ii g = Accum.mean_over (M ^ 2) Accum.G1_ii ts /\
    Accum.ss g = Accum.mean_over (M ^ 2) Accum.G1_ss ts /\
    Accum.si g = Accum.mean_over (M ^ 2) Accum.G1_si ts) /\
   (Accum.ii q = Accum.mean_over (M ^ 2) Accum.Q_ii ts /\
    Accum.ss q = Accum.mean_over (M ^ 2) Accum.Q_ss ts /\
    Accum.si q = Accum.mean_over (M ^ 2) Accum.Q_si ts)).
Proof.
  intros g q.
  pose proof (updates_sum Accum.G1_ii Accum.G1_ss Accum.G1_si M N ts) as Hg.
  pose proof (updates_sum Accum.Q_ii Accum.Q_ss Accum.Q_si M N ts) as Hq.
  cbv zeta in Hg, Hq. fold g in Hg. fold q in Hq.
  split; [exact Hg|]. split; [exact Hq|].
  intros Hlen. unfold Accum.mean_over. rewrite Hlen. split; assumption.
Qed.

(** With N = 1 the one trial is the whole ensemble and the matrices are
    means. *)
Lemma accumulators_sum_over_N_witness :
  Accum.ii (Accum.updates Accum.G1_ii Accum.G1_ss Accum.G1_si (Accum.G1_mat 1)
              [unit_trial; imag_trial] 2)
  = Accum.mean_over (1 ^ 2) Accum.G1_ii [unit_trial; imag_trial].
Proof.
  exact (proj1 (proj1 (proj2 (proj2 (accumulators_sum_over_N 1 2
                                       [unit_trial; imag_trial]))
                         eq_refl))).
Defined.

Lemma update_keeps_shape_and_dagger_witness :
  let g := Accum.G1_update (Accum.G1_mat 1) one_field one_field one_field one_field 2 in
  Accum.acc_shape (1 ^ 2) g /\ Accum.si_dagger g = dagger (Accum.si g).
Proof.
  pose proof (update_keeps_shape_and_dagger 1 2 [] unit_trial (Forall_nil _)
                unit_trial_shape) as H.
  cbv zeta in H. destruct H as [(H1 & H2 & _) _]. split; [exact H1|exact H2].
Defined.

Lemma G1_ii_ss_hermitian_witness :
  Accum.hermitian
    (Accum.ii (Accum.updates Accum.G1_ii Accum.G1_ss Accum.G1_si (Accum.G1_mat 1)
                 [unit_trial; unit_trial] 2)).
Proof.
  refine (proj1 (G1_ii_ss_hermitian 1 2 [unit_trial; unit_trial] _)).
  repeat constructor.
Defined.

(** ** The composition of G2 *)

Lemma mmul_shape {n k : nat} {a b : cmat} :
  has_shape n k a -> has_shape n k b -> has_shape n k (mmul a b).
Proof. apply mmap2_shape. Qed.

(** Entry (r, c) of G2 is the real part of the three products at (r, c). *)
Lemma G2_of_entry {n : nat} {g_ii g_ss g_si g_sid q_si q_sid : cmat} {r c : nat} :
  has_shape n n g_ii -> has_shape n n g_ss -> has_shape n n g_si ->
  has_shape n n g_sid -> has_shape n n q_si -> has_shape n n q_sid ->
  r < n -> c < n ->
  mget 0%R (G2_of g_ii g_ss g_si g_sid q_si q_sid) r c
  = Cre (G2_entry g_ii g_ss g_si g_sid q_si q_sid r c).
Proof.
  intros H1 H2 H3 H4 H5 H6 Hr Hc. unfold G2_of, G2_entry, mreal.
  pose proof (mmul_shape H1 H2) as S1.
  pose proof (mmul_shape H6 H5) as S2.
  pose proof (mmul_shape H4 H3) as S3.
  pose proof (madd_shape S1 S2) as S12.
  rewrite (mget_mmap Cre C0 0%R (madd_shape S12 S3) Hr Hc).
  rewrite (mget_madd S12 S3 Hr Hc), (mget_madd S1 S2 Hr Hc).
  rewrite (mget_mmul H1 H2 Hr Hc), (mget_mmul H6 H5 Hr Hc), (mget_mmul H4 H3 Hr Hc).
  reflexivity.
Qed.

Lemma G2_of_shape (n : nat) (g_ii g_ss g_si g_sid q_si q_sid : cmat) :
  has_shape n n g_ii -> has_shape n n g_ss -> has_shape n n g_si ->
  has_shape n n g_sid -> has_shape n n q_si -> has_shape n n q_sid ->
  has_shape n n (G2_of g_ii g_ss g_si g_sid q_si q_sid).
Proof.
  intros H1 H2 H3 H4 H5 H6. unfold G2_of, mreal.
  apply mmap_shape, madd_shape; [apply madd_shape|]; apply mmul_shape; assumption.
Qed.

(** A Hermitian matrix has a real diagonal. *)
Lemma hermitian_diag_real {n : nat} {a : cmat} {k : nat} :
  has_shape n n a -> Accum.hermitian a -> k < n -> Cim (mget C0 a k k) = 0%R.
Proof.
  intros Hs Hh Hk. pose proof (hermitian_entry Hs Hh Hk Hk) as E.
  destruct (mget C0 a k k) as [x y]. unfold Cconj, Cre, Cim in *. simpl in *.
  injection E as E. lra.
Qed.

(** C7. G2 non-negativity: when [ii] and [ss] of G1 are Hermitian with a
    diagonal that is not negative and [si_dagger] is the conjugate transpose
    of [si], for G1 and for Q, every diagonal entry (k = k') of the composed
    G2 is real (the sum of products has no imaginary part there) and not
    negative. *)
Theorem G2_diagonal_nonneg (n : nat) (g_ii g_ss g_si g_sid q_si q_sid : cmat) (k : nat) :
  has_shape n n g_ii -> has_shape n n g_ss ->
  has_shape n n g_si -> has_shape n n q_si ->
  Accum.hermitian g_ii -> Accum.hermitian g_ss ->
  (forall j, j < n -> (0 <= Cre (mget C0 g_ii j j))%R) ->
  (forall j, j < n -> (0 <= Cre (mget C0 g_ss j j))%R) ->
  g_sid = dagger g_si -> q_sid = dagger q_si ->
  k < n ->
  Cim (G2_entry g_ii g_ss g_si g_sid q_si q_sid k k) = 0%R /\
  mget 0%R (G2_of g_ii g_ss g_si g_sid q_si q_sid) k k
  = Cre (G2_entry g_ii g_ss g_si g_sid q_si q_sid k k) /\
  (0 <= mget 0%R (G2_of g_ii g_ss g_si g_sid q_si q_sid) k k)%R.
Proof.
  intros H1 H2 H3 H5 Hh1 Hh2 Hp1 Hp2 -> -> Hk.
  pose proof (dagger_shape H3) as H4. pose proof (dagger_shape H5) as H6.
  rewrite (G2_of_entry H1 H2 H3 H4 H5 H6 Hk Hk).
  unfold G2_entry. rewrite !(mget_dagger n) by assumption.
  pose proof (hermitian_diag_real H1 Hh1 Hk) as I1.
  pose proof (hermitian_diag_real H2 Hh2 Hk) as I2.
  specialize (Hp1 k Hk). specialize (Hp2 k Hk).
  destruct (Cmul_conj_self (mget C0 g_si k k)) as [Ig Rg].
  destruct (Cmul_conj_self (mget C0 q_si k k)) as [Iq Rq].
  set (zg := Cmul (Cconj (mget C0 g_si k k)) (mget C0 g_si k k)) in *.
  set (zq := Cmul (Cconj (mget C0 q_si k k)) (mget C0 q_si k k)) in *.
  destruct (mget C0 g_ii k k) as [a b], (mget C0 g_ss k k) as [c e].
  destruct zg as [g1 g2], zq as [q1 q2].
  unfold Cadd, Cmul, Cre, Cim in *. simpl in *. subst.
  split; [ring|]. split; [reflexivity|].
  pose proof (Rmult_le_pos a c Hp1 Hp2). lra.
Qed.

Lemma sample_hermitian (x : R) : Accum.hermitian [[(x, 0%R)]].
Proof.
  unfold Accum.hermitian, dagger, mconj, mmap, transpose, Cconj, Cre, Cim.
  simpl. do 3 f_equal. lra.
Qed.

Lemma sample_diag_nonneg (x : R) (j : nat) :
  (0 <= x)%R -> j < 1 -> (0 <= Cre (mget C0 [[(x, 0%R)]] j j))%R.
Proof.
  intros Hx Hj. replace j with 0 by lia. exact Hx.
Qed.

Lemma two_three_nonneg : (0 <= 2)%R /\ (0 <= 3)%R.
Proof. split; lra. Qed.

Lemma G2_diagonal_nonneg_witness :
  (0 <= mget 0%R (G2_of sample_ii sample_ss sample_si (dagger sample_si)
                        sample_Q_si (dagger sample_Q_si)) 0 0)%R.
Proof.
  refine (proj2 (proj2 (G2_diagonal_nonneg 1 sample_ii sample_ss sample_si
                          (dagger sample_si) sample_Q_si (dagger sample_Q_si) 0
                          _ _ _ _
                          (sample_hermitian 2) (sample_hermitian 3)
                          (fun j => sample_diag_nonneg 2 j (proj1 two_three_nonneg))
                          (fun j => sample_diag_nonneg 3 j (proj2 two_three_nonneg))
                          eq_refl eq_refl Nat.lt_0_1)));
    repeat constructor.
Defined.

(** ** The trial loop *)

Module ScriptFacts.
Import Script Views.

Section LoopFacts.
Context {F : SPDC_funcs}.

Lemma trial_log (cfg : Config) (n : nat) (st : LoopState) :
  snd (trial cfg n st) = snd st ++ trial_events cfg n.
Proof.
  unfold trial_events, trial, trial_indist, trial_dist.
  destruct (IS_INDISTIGUISHABLE cfg); reflexivity.
Qed.

Lemma run_trials_log (cfg : Config) (ns : list nat) (st : LoopState) :
  snd (run_trials cfg ns st) = snd st ++ flat_map (trial_events cfg) ns.
Proof.
  revert st. induction ns as [|n ns IH]; intros st; cbn [run_trials flat_map].
  - rewrite app_nil_r. reflexivity.
  - rewrite IH, trial_log, app_assoc. reflexivity.
Qed.

(** The accumulators do not depend on the log. *)
Lemma trial_accs (cfg : Config) (n : nat) (st : LoopState) :
  fst (trial cfg n st) =
  update_all cfg n (fst st)
    (if IS_INDISTIGUISHABLE cfg then fields_indist cfg n else fields_dist cfg n).
Proof.
  unfold trial, trial_indist, trial_dist.
  destruct (IS_INDISTIGUISHABLE cfg); reflexivity.
Qed.

Lemma run_trials_accs (cfg : Config) (ns : list nat) (st : LoopState) :
  fst (run_trials cfg ns st) =
  fold_left (fun a n =>
               update_all cfg n a
                 (if IS_INDISTIGUISHABLE cfg
                  then fields_indist cfg n else fields_dist cfg n))
            ns (fst st).
Proof.
  revert st. induction ns as [|n ns IH]; intros st; cbn [run_trials fold_left].
  - reflexivity.
  - rewrite IH, trial_accs. reflexivity.
Qed.

Lemma last_cons_default {A : Type} (x d : A) (l : list A) :
  last (x :: l) d = last l x.
Proof.
  revert x d. induction l as [|y l IH]; intros x d; [reflexivity|].
  change (last (x :: y :: l) d) with (last (y :: l) d).
  rewrite IH. symmetry. apply IH.
Qed.

(** The trajectory has one state per pass and ends in the final state. *)
Lemma trajectory_from_length (cfg : Config) (ns : list nat) (st : LoopState) :
  length (trajectory_from cfg ns st) = length ns.
Proof.
  revert st. induction ns as [|n ns IH]; intros st; simpl; [reflexivity|].
  rewrite IH. reflexivity.
Qed.

Lemma trajectory_from_last (cfg : Config) (ns : list nat) (st : LoopState) :
  last (trajectory_from cfg ns st) (fst st) = fst (run_trials cfg ns st).
Proof.
  revert st. induction ns as [|n ns IH]; intros st; [reflexivity|].
  cbn [trajectory_from run_trials]. cbv zeta.
  rewrite last_cons_default. apply IH.
Qed.

Lemma degenerate_trial_events (cfg : Config) (n : nat) :
  IS_INDISTIGUISHABLE cfg = true ->
  trial_events cfg n =
  EvField RSignal n (nth n (vac_rnd_sig cfg) [])
  :: EvProp [RSignal] n
  :: update_events cfg n (fields_indist cfg n).
Proof.
  intros H. unfold trial_events, trial. rewrite H. reflexivity.
Qed.

Lemma degenerate_update_events (cfg : Config) (n : nat) :
  Forall degenerate_event (update_events cfg n (fields_indist cfg n)).
Proof.
  unfold update_events. destruct (DO_POLAR cfg); repeat constructor.
Qed.

Lemma In_flat_map_seq {A : Type} (f : nat -> list A) {n k : nat} {x : A} :
  k < n -> In x (f k) -> In x (flat_map f (seq 0 n)).
Proof.
  intros Hk Hx. apply in_flat_map. exists k. split; [apply in_seq; lia|exact Hx].
Qed.

Lemma trajectory_from_nth (cfg : Config) (ns : list nat) (st : LoopState)
      (k : nat) (d : Accs) :
  k < length ns ->
  nth k (trajectory_from cfg ns st) d = fst (run_trials cfg (firstn (S k) ns) st).
Proof.
  revert st k. induction ns as [|n ns IH]; intros st k Hk; simpl in Hk; [lia|].
  destruct k as [|k].
  - destruct ns; reflexivity.
  - cbn [trajectory_from nth]. cbv zeta. rewrite IH by lia. reflexivity.
Qed.

Lemma firstn_seq_le (k s n : nat) : k <= n -> firstn k (seq s n) = seq s k.
Proof.
  revert s n. induction k as [|k IH]; intros s [|n] Hk; try reflexivity; [lia|].
  cbn [seq firstn]. rewrite IH by lia. reflexivity.
Qed.

(** Entry [k] of the trajectory is the state after the passes 0..k. *)
Lemma trajectory_nth (cfg : Config) (k : nat) (d : Accs) :
  k < N cfg ->
  nth k (trajectory cfg) d = fst (run_trials cfg (seq 0 (S k)) (init_accs cfg, [])).
Proof.
  intros Hk. unfold trajectory.
  rewrite trajectory_from_nth by (rewrite length_seq; exact Hk).
  rewrite firstn_seq_le by lia. reflexivity.
Qed.

(** Each accumulator after a fold of [update_all] is the fold of its own
    [update] over the same passes. *)
Lemma fold_update_all (cfg : Config) (t : nat -> Trial) (ns : list nat) (a0 : Accs) :
  let a := fold_left (fun a n => update_all cfg n a (t n)) ns a0 in
  G1 a = fold_left (fun g n => G1_update g (t_s_out (t n)) (t_s_vac (t n))
                                 (t_i_out (t n)) (t_i_vac (t n)) (N cfg))
                   ns (G1 a0) /\
  Q a = fold_left (fun g n => Q_update g (t_s_out (t n)) (t_s_vac (t n))
                                (t_i_out (t n)) (t_i_vac (t n)) (N cfg))
                  ns (Q a0) /\
  G1_pol a =
    (if DO_POLAR cfg
     then option_map
            (fold_left (fun g n => G1_update g (car2pol (t_s_out (t n)))
                                     (car2pol (t_s_vac (t n))) (car2pol (t_i_out (t n)))
                                     (car2pol (t_i_vac (t n))) (N cfg)) ns)
            (G1_pol a0)
     else G1_pol a0) /\
  Q_pol a =
    (if DO_POLAR cfg
     then option_map
            (fold_left (fun g n => Q_update g (car2pol (t_s_out (t n)))
                                     (car2pol (t_s_vac (t n))) (car2pol (t_i_out (t n)))
                                     (car2pol (t_i_vac (t n))) (N cfg)) ns)
            (Q_pol a0)
     else Q_pol a0).
Proof.
  revert a0. induction ns as [|n ns IH]; intros a0.
  - cbn. destruct (DO_POLAR cfg), (G1_pol a0), (Q_pol a0); repeat split.
  - cbn [fold_left]. cbv zeta in *.
    destruct (IH (update_all cfg n a0 (t n))) as (H1 & H2 & H3 & H4).
    rewrite H1, H2, H3, H4. unfold update_all. cbn [G1 Q G1_pol Q_pol].
    destruct (DO_POLAR cfg), (G1_pol a0), (Q_pol a0); repeat split.
Qed.

(** The accumulators after the passes of [ns], from the fresh ones. *)
Lemma run_trials_components (cfg : Config) (t : nat -> Trial) (ns : list nat) :
  (forall n, (if IS_INDISTIGUISHABLE cfg then fields_indist cfg n else fields_dist cfg n)
             = t n) ->
  let a := fst (run_trials cfg ns (init_accs cfg, [])) in
  G1 a = fold_left (fun g n => G1_update g (t_s_out (t n)) (t_s_vac (t n))
                                 (t_i_out (t n)) (t_i_vac (t n)) (N cfg))
                   ns G1_mat /\
  Q a = fold_left (fun g n => Q_update g (t_s_out (t n)) (t_s_vac (t n))
                                (t_i_out (t n)) (t_i_vac (t n)) (N cfg))
                  ns Q_mat /\
  G1_pol a =
    (if DO_POLAR cfg
     then Some (fold_left (fun g n => G1_update g (car2pol (t_s_out (t n)))
                                        (car2pol (t_s_vac (t n))) (car2pol (t_i_out (t n)))
                                        (car2pol (t_i_vac (t n))) (N cfg)) ns G1_mat)
     else None) /\
  Q_pol a =
    (if DO_POLAR cfg
     then Some (fold_left (fun g n => Q_update g (car2pol (t_s_out (t n)))
                                        (car2pol (t_s_vac (t n))) (car2pol (t_i_out (t n)))
                                        (car2pol (t_i_vac (t n))) (N cfg)) ns Q_mat)
     else None).
Proof.
  intros Ht a. subst a. rewrite run_trials_accs. cbn [fst].
  assert (E : fold_left (fun a n => update_all cfg n a
                           (if IS_INDISTIGUISHABLE cfg
                            then fields_indist cfg n else fields_dist cfg n))
                        ns (init_accs cfg)
              = fold_left (fun a n => update_all cfg n a (t n)) ns (init_accs cfg)).
  { generalize (init_accs cfg). induction ns as [|n ns IH]; intros a0; [reflexivity|].
    cbn [fold_left]. rewrite Ht. apply IH. }
  rewrite E.
  destruct (fold_update_all cfg t ns (init_accs cfg)) as (H1 & H2 & H3 & H4).
  rewrite H1, H2, H3, H4. unfold init_accs. cbn [G1 Q G1_pol Q_pol].
  destruct (DO_POLAR cfg); repeat split.
Qed.

(** C3. Degenerate-mode aliasing.  With [IS_INDISTIGUISHABLE] set, after
    every pass k (and so at the end of the loop) each accumulator is the
    result of k + 1 calls of its [update], one per pass 0..k, whose four
    arrays are all made from one field: the signal beam's field, built from
    the signal's vacuum sample of that pass and propagated by the one-field
    propagator.  The idler slots receive the very arrays of the signal
    slots, the far field of [E_out] and of [E_vac]; no idler field, idler
    beam or idler sample enters.  The log of the loop says the same: one field
    built and one propagation per pass, both of the signal. *)
Theorem degenerate_mode_aliasing (cfg : Config) :
  IS_INDISTIGUISHABLE cfg = true ->
  let PP := PP_SLT cfg in
  let vac := fun n =>
    nth n (random_normal (key1 cfg) (N cfg) 2
                         (length (crystal_x PP)) (length (crystal_y PP))) [] in
  let Sf := fun n =>
    crystal_prop_indistuigishable (Pump cfg) (Field (Signal cfg) PP (vac n)) PP in
  let c := fun n =>
    ((2 * MaxX PP) ^ 2
     / (INR (np_size (E_out (Sf n))) * beam_lam (Signal cfg) * R_screen cfg))%R in
  let out := fun n => mscale (c n) (Fourier (E_out (Sf n))) in
  let vak := fun n => mscale (c n) (Fourier (E_vac (Sf n))) in
  let upd := fun (u : AccT -> cmat -> cmat -> cmat -> cmat -> nat -> AccT) g n =>
    u g (out n) (vak n) (out n) (vak n) (N cfg) in
  let upd_pol := fun (u : AccT -> cmat -> cmat -> cmat -> cmat -> nat -> AccT) g n =>
    u g (car2pol (out n)) (car2pol (vak n)) (car2pol (out n)) (car2pol (vak n))
      (N cfg) in
  let after := fun (ns : list nat) (a : Accs) =>
    G1 a = fold_left (upd G1_update) ns G1_mat /\
    Q a = fold_left (upd Q_update) ns Q_mat /\
    G1_pol a = (if DO_POLAR cfg
                then Some (fold_left (upd_pol G1_update) ns G1_mat) else None) /\
    Q_pol a = (if DO_POLAR cfg
               then Some (fold_left (upd_pol Q_update) ns Q_mat) else None) in
  (forall k d, k < N cfg -> after (seq 0 (S k)) (nth k (trajectory cfg) d)) /\
  after (seq 0 (N cfg)) (fst (run_loop cfg)) /\
  snd (run_loop cfg) =
    flat_map (fun n =>
                let t := mkTrial (out n) (vak n) (out n) (vak n) in
                let tp := mkTrial (car2pol (out n)) (car2pol (vak n))
                                  (car2pol (out n)) (car2pol (vak n)) in
                [EvField RSignal n (vac n); EvProp [RSignal] n;
                 EvUpdate NG1 n t (N cfg); EvUpdate NQ n t (N cfg)]
                ++ (if DO_POLAR cfg
                    then [EvUpdate NG1_pol n tp (N cfg); EvUpdate NQ_pol n tp (N cfg)]
                    else []))
             (seq 0 (N cfg)) /\
  Forall degenerate_event (snd (run_loop cfg)).
Proof.
  intros Hflag PP vac Sf c out vak upd upd_pol after.
  assert (Ht : forall n,
             (if IS_INDISTIGUISHABLE cfg then fields_indist cfg n else fields_dist cfg n)
             = mkTrial (out n) (vak n) (out n) (vak n)).
  { intros n. rewrite Hflag. reflexivity. }
  assert (Hafter : forall ns, after ns (fst (run_trials cfg ns (init_accs cfg, [])))).
  { intros ns. exact (run_trials_components cfg _ ns Ht). }
  assert (Hlog : snd (run_loop cfg) =
                 flat_map (fun n => EvField RSignal n (nth n (vac_rnd_sig cfg) [])
                                    :: EvProp [RSignal] n
                                    :: update_events cfg n (fields_indist cfg n))
                          (seq 0 (N cfg))).
  { unfold run_loop. rewrite run_trials_log. cbn [snd app].
    apply flat_map_ext. intros n. apply degenerate_trial_events, Hflag. }
  split; [|split; [|split]].
  - intros k d Hk. rewrite (trajectory_nth cfg k d Hk). apply Hafter.
  - apply Hafter.
  - rewrite Hlog. reflexivity.
  - rewrite Hlog. apply Forall_flat_map, Forall_forall. intros n _.
    constructor; [reflexivity|]. constructor; [reflexivity|].
    apply degenerate_update_events.
Qed.




(** In the degenerate loop no pass reads the idler's seed. *)
Lemma trial_with_key2 (cfg : Config) (k : PRNGKey) (n : nat) (st : LoopState) :
  IS_INDISTIGUISHABLE cfg = true ->
  trial (with_key2 cfg k) n st = trial cfg n st.
Proof.
  intros H. unfold trial. cbn [IS_INDISTIGUISHABLE with_key2]. rewrite H.
  reflexivity.
Qed.

Lemma run_trials_with_key2 (cfg : Config) (k : PRNGKey) (ns : list nat)
      (st : LoopState) :
  IS_INDISTIGUISHABLE cfg = true ->
  run_trials (with_key2 cfg k) ns st = run_trials cfg ns st.
Proof.
  intros H. revert st. induction ns as [|n ns IH]; intros st; [reflexivity|].
  cbn [run_trials]. rewrite trial_with_key2 by exact H. apply IH.
Qed.

Lemma trajectory_from_with_key2 (cfg : Config) (k : PRNGKey) (ns : list nat)
      (st : LoopState) :
  IS_INDISTIGUISHABLE cfg = true ->
  trajectory_from (with_key2 cfg k) ns st = trajectory_from cfg ns st.
Proof.
  intros H. revert st. induction ns as [|n ns IH]; intros st; [reflexivity|].
  cbn [trajectory_from]. cbv zeta. rewrite trial_with_key2 by exact H.
  rewrite IH. reflexivity.
Qed.

(** C10. With [IS_INDISTIGUISHABLE] set, the idler's vacuum array is drawn
    from the second seed but the loop never reads it: the accumulators after
    every trial, the events of the loop, and every result computed after it
    (G1, Q, G2, the photodetection maps and the reduced maps) are the same
    whatever the second seed is. *)
Theorem idler_seed_unused_when_degenerate (cfg : Config) (k : PRNGKey) :
  IS_INDISTIGUISHABLE cfg = true ->
  vac_rnd_idl (with_key2 cfg k) = random_normal k (N cfg) 2 (Nx cfg) (Ny cfg) /\
  run_loop (with_key2 cfg k) = run_loop cfg /\
  trajectory (with_key2 cfg k) = trajectory cfg /\
  run (with_key2 cfg k) = run cfg.
Proof.
  intros H.
  assert (Hloop : run_loop (with_key2 cfg k) = run_loop cfg).
  { unfold run_loop. cbn [N with_key2]. rewrite run_trials_with_key2 by exact H.
    reflexivity. }
  split; [reflexivity|]. split; [exact Hloop|]. split.
  - unfold trajectory. cbn [N with_key2].
    rewrite trajectory_from_with_key2 by exact H. reflexivity.
  - unfold run. rewrite Hloop. reflexivity.
Qed.

End LoopFacts.

(** *** The statements after the loop *)

Section TailFacts.
Context {F : SPDC_funcs}.

Lemma exec_app (p q : list Stmt) (e : Env) :
  exec (p ++ q) e = match exec p e with Some e' => exec q e' | None => None end.
Proof.
  revert e. induction p as [|s p IH]; intros e; [reflexivity|].
  cbn [app exec]. destruct (exec1 s e); [apply IH|reflexivity].
Qed.

(** Statements that assign other names leave the binding of [x] as it is. *)
Lemma exec_preserves {x : Var} {p : list Stmt} {e e' : Env} :
  Forall (fun s => Var_eqb (target s) x = false) p ->
  exec p e = Some e' -> e' x = e x.
Proof.
  intros Hall. revert e. induction Hall as [|s p Hs _ IH]; intros e He.
  - injection He as <-. reflexivity.
  - cbn [exec] in He. unfold exec1 in He.
    destruct (rhs s e) as [v|]; [|discriminate].
    rewrite (IH _ He). unfold bind. rewrite Hs. reflexivity.
Qed.

Lemma Forall_app_l {A : Type} (P : A -> Prop) (l1 l2 : list A) :
  Forall P (l1 ++ l2) -> Forall P l1.
Proof. intros H. apply Forall_app in H. apply H. Qed.

Lemma update_all_polar_ok (cfg : Config) (n : nat) (a : Accs) (t : Trial) :
  polar_ok cfg a -> polar_ok cfg (update_all cfg n a t).
Proof.
  intros H Hp. destruct (H Hp) as (g & q & Eg & Eq).
  unfold update_all. cbn [G1_pol Q_pol]. rewrite Hp, Eg, Eq.
  cbn [option_map]. eauto.
Qed.

Lemma run_loop_polar_ok (cfg : Config) : polar_ok cfg (fst (run_loop cfg)).
Proof.
  unfold run_loop. rewrite run_trials_accs. cbn [fst].
  assert (H0 : polar_ok cfg (init_accs cfg)).
  { intros Hp. unfold init_accs. cbn [G1_pol Q_pol]. rewrite Hp. eauto. }
  revert H0. generalize (init_accs cfg). generalize (seq 0 (N cfg)).
  induction l as [|n ns IH]; intros a Ha; [exact Ha|].
  cbn [fold_left]. apply IH, update_all_polar_ok, Ha.
Qed.

Lemma after_G2_keeps_G2 (cfg : Config) (a : Accs) :
  Forall (fun s => Var_eqb (target s) VG2 = false) (after_G2 cfg a).
Proof.
  unfold after_G2, polar. destruct (DO_POLAR cfg); repeat constructor.
Qed.

Lemma before_G2_keeps_G2 (cfg : Config) (a : Accs) :
  Forall (fun s => Var_eqb (target s) VG2 = false) (before_G2 cfg a).
Proof.
  unfold before_G2, polar. destruct (DO_POLAR cfg); repeat constructor.
Qed.

Lemma assignments_G2 (cfg : Config) (a : Accs) :
  assignments VG2 (post_loop cfg a) = 1.
Proof.
  unfold assignments, post_loop, before_G2, after_G2, polar.
  destruct (DO_POLAR cfg); reflexivity.
Qed.

(** On six arrays of one shape line 244 succeeds and is the element-wise
    [G2_of]. *)
Lemma G2_checked_shape {n : nat} {g_ii g_ss g_si g_sid q_si q_sid : cmat} :
  has_shape n n g_ii -> has_shape n n g_ss -> has_shape n n g_si ->
  has_shape n n g_sid -> has_shape n n q_si -> has_shape n n q_sid ->
  G2_checked g_ii g_ss g_si g_sid q_si q_sid
  = Some (G2_of g_ii g_ss g_si g_sid q_si q_sid).
Proof.
  intros H1 H2 H3 H4 H5 H6. unfold G2_checked, G2_of, np_mul, np_add.
  pose proof (mmul_shape H1 H2) as S1.
  pose proof (mmul_shape H6 H5) as S2.
  pose proof (mmul_shape H4 H3) as S3.
  pose proof (madd_shape S1 S2) as S12.
  rewrite (broadcast2_shape Cmul H1 H2). cbn [obind].
  rewrite (broadcast2_shape Cmul H6 H5). cbn [obind].
  fold (mmul g_ii g_ss). fold (mmul q_sid q_si).
  rewrite (broadcast2_shape Cadd S1 S2). cbn [obind].
  rewrite (broadcast2_shape Cmul H4 H3). cbn [obind].
  fold (madd (mmul g_ii g_ss) (mmul q_sid q_si)). fold (mmul g_sid g_si).
  rewrite (broadcast2_shape Cadd S12 S3). reflexivity.
Qed.

Lemma compose_G2_checked_shape {n : nat} {g q : AccT} :
  acc_shapes n g q -> compose_G2_checked g q = Some (compose_G2 g q).
Proof.
  intros (H1 & H2 & H3 & H4 & H5 & H6). apply (G2_checked_shape H1 H2 H3 H4 H5 H6).
Qed.

(** The masked product of lines 190-195 succeeds on an M^2 by M^2 array. *)
Lemma masked_diag_shape (cfg : Config) (g : cmat) (x : R) :
  has_shape (M cfg ^ 2) (M cfg ^ 2) g ->
  masked_diag cfg g x =
  Some (mdivr (mmap2 (fun z d => Cscale (INR d) z) g (Kron_diag (M cfg))) x).
Proof.
  intros Hg. unfold masked_diag.
  rewrite (broadcast2_shape _ Hg (Kron_diag_shape (M cfg))). reflexivity.
Qed.
(** It fails on an array whose shape does not broadcast against the M^2 by
    M^2 indicator. *)
Lemma masked_diag_mismatch (cfg : Config) (g : cmat) (x : R) (r c : nat) :
  M cfg <> 0 -> shape_of g = Some (r, c) ->
  bdim r (M cfg ^ 2) = None \/ bdim c (M cfg ^ 2) = None ->
  masked_diag cfg g x = None.
Proof.
  intros HM Hg Hbad. unfold masked_diag, broadcast2. rewrite Hg.
  pose proof (Kron_diag_shape (M cfg)) as Hk.
  destruct (Kron_diag (M cfg)) as [|kr kt] eqn:Ek.
  - destruct Hk as [Hk _]. cbn in Hk.
    assert (0 < M cfg ^ 2) by (rewrite Nat.pow_2_r; nia). lia.
  - rewrite (shape_of_has_shape kr kt Hk).
    destruct Hbad as [E|E]; rewrite E; [reflexivity|].
    destruct (bdim r (M cfg ^ 2)); reflexivity.
Qed.


(** The statements before line 244 run through when G1's [ii] and [ss] are
    M^2 by M^2 and, under [DO_POLAR], the polar ones too. *)
Lemma before_G2_runs {cfg : Config} {a : Accs} :
  polar_ok cfg a -> polar_shapes cfg a ->
  has_shape (M cfg ^ 2) (M cfg ^ 2) (acc_ii (G1 a)) ->
  has_shape (M cfg ^ 2) (M cfg ^ 2) (acc_ss (G1 a)) ->
  exists e0, exec (before_G2 cfg a) unbound = Some e0.
Proof.
  intros Hp Hps Hii Hss.
  unfold before_G2, polar. rewrite exec_app.
  assert (Htail : forall e, exists e0, exec [L211 cfg a; L212 cfg a] e = Some e0).
  { intros e. cbn [exec]. unfold exec1, L211, L212. cbn [rhs target].
    rewrite (diag_extract_P_loop C0 Hii), (diag_extract_P_loop C0 Hss).
    cbn [option_map]. eauto. }
  destruct (DO_POLAR cfg) eqn:Epol.
  - destruct (Hp Epol) as (g & q & Eg & Eq).
    destruct (Hps Epol g q Eg Eq) as (P1 & P2 & _).
    cbn [exec]. unfold exec1, L194, L195. cbn [rhs target]. rewrite Eg.
    cbn [obind].
    rewrite (masked_diag_shape cfg _ (norm_i cfg) P1),
      (masked_diag_shape cfg _ (norm_s cfg) P2).
    cbn [option_map]. apply Htail.
  - cbn [exec]. apply Htail.
Qed.

(** The statements after line 244 run through once G2 is bound. *)
Lemma after_G2_runs {cfg : Config} {a : Accs} {e1 : Env} {g2 : rmat} :
  polar_ok cfg a -> polar_shapes cfg a -> e1 VG2 = Some (ValR g2) ->
  exists eF, exec (after_G2 cfg a) e1 = Some eF.
Proof.
  intros Hp Hps HG2. unfold after_G2, polar.
  destruct (DO_POLAR cfg) eqn:Epol.
  - destruct (Hp Epol) as (g & q & Eg & Eq).
    pose proof (compose_G2_checked_shape (Hps Epol g q Eg Eq)) as Ec.
    cbn [app exec]. unfold exec1, L248, L259, L279, L280, L312, L313, L314.
    cbn [rhs target]. rewrite Eg, Eq, Ec.
    cbn [bind Var_eqb as_R as_T option_map]. rewrite HG2.
    cbn [bind Var_eqb as_R as_T option_map]. eauto.
  - cbn [app exec]. unfold exec1, L259, L279, L280.
    cbn [rhs target bind Var_eqb as_R as_T option_map]. rewrite HG2.
    cbn [bind Var_eqb as_R as_T option_map]. eauto.
Qed.

(** C1. G2 is composed exactly once, from the accumulators the loop leaves:
    one statement of the script assigns it (line 244); before it G2 is
    unbound; the statement binds it to
    [Re(G1.ii * G1.ss + Q.si_dagger * Q.si + G1.si_dagger * G1.si)], whose
    entry (r, c) is the real part of the three products at (r, c) of the
    M^2 by M^2 matrices; and no later statement changes it, so that it is
    the G2 of every finished run.  The run does finish when, under
    [DO_POLAR], the arrays of the polar accumulators are M^2 by M^2 too
    (lines 194-195 and 248 fail on shapes that do not broadcast). *)
Theorem G2_composed_once (cfg : Config) :
  let a := fst (run_loop cfg) in
  let n := M cfg ^ 2 in
  has_shape n n (acc_ii (G1 a)) -> has_shape n n (acc_ss (G1 a)) ->
  has_shape n n (acc_si (G1 a)) -> has_shape n n (acc_si_dagger (G1 a)) ->
  has_shape n n (acc_si (Q a)) -> has_shape n n (acc_si_dagger (Q a)) ->
  let g2 := G2_of (acc_ii (G1 a)) (acc_ss (G1 a)) (acc_si (G1 a))
                  (acc_si_dagger (G1 a)) (acc_si (Q a)) (acc_si_dagger (Q a)) in
  assignments VG2 (post_loop cfg a) = 1 /\
  (forall e, snd (run cfg) = Some e -> e VG2 = Some (ValR g2)) /\
  (polar_shapes cfg a ->
   exists e0 e1 eF,
     exec (before_G2 cfg a) unbound = Some e0 /\ e0 VG2 = None /\
     exec1 (L244 a) e0 = Some e1 /\ e1 VG2 = Some (ValR g2) /\
     exec (after_G2 cfg a) e1 = Some eF /\ eF VG2 = Some (ValR g2) /\
     run cfg = (a, Some eF) /\
     (forall p p' e, after_G2 cfg a = p ++ p' -> exec p e1 = Some e ->
                     e VG2 = Some (ValR g2))) /\
  has_shape n n g2 /\
  (forall r c, r < n -> c < n ->
     mget 0%R g2 r c =
     Cre (Cadd (Cadd (Cmul (mget C0 (acc_ii (G1 a)) r c) (mget C0 (acc_ss (G1 a)) r c))
                     (Cmul (mget C0 (acc_si_dagger (Q a)) r c)
                           (mget C0 (acc_si (Q a)) r c)))
               (Cmul (mget C0 (acc_si_dagger (G1 a)) r c)
                     (mget C0 (acc_si (G1 a)) r c)))).
Proof.
  intros a n H1 H2 H3 H4 H5 H6 g2.
  pose proof (run_loop_polar_ok cfg) as Hp. fold a in Hp.
  assert (Hc : compose_G2_checked (G1 a) (Q a) = Some g2).
  { apply (compose_G2_checked_shape (n := n)).
    exact (conj H1 (conj H2 (conj H3 (conj H4 (conj H5 H6))))). }
  split; [apply assignments_G2|]. split; [|split; [|split]].
  - intros e He. unfold run in He. cbn [snd] in He. fold a in He.
    unfold post_loop in He. rewrite exec_app in He.
    destruct (exec (before_G2 cfg a) unbound) as [e0|]; [|discriminate].
    cbn [exec] in He. unfold exec1 at 1, L244 in He. cbn [rhs target] in He.
    rewrite Hc in He. cbn [option_map] in He.
    rewrite (exec_preserves (after_G2_keeps_G2 cfg a) He).
    unfold bind. cbn [Var_eqb]. reflexivity.
  - intros Hps. destruct (before_G2_runs Hp Hps H1 H2) as [e0 He0].
    pose proof (exec_preserves (before_G2_keeps_G2 cfg a) He0) as K0.
    set (e1 := bind e0 VG2 (ValR g2)).
    assert (K1 : e1 VG2 = Some (ValR g2)) by reflexivity.
    assert (HL : exec1 (L244 a) e0 = Some e1).
    { unfold exec1, L244. cbn [rhs target]. rewrite Hc. reflexivity. }
    destruct (after_G2_runs (cfg := cfg) Hp Hps K1) as [eF HeF].
    pose proof (exec_preserves (after_G2_keeps_G2 cfg a) HeF) as KF.
    exists e0, e1, eF.
    split; [exact He0|]. split; [exact K0|]. split; [exact HL|].
    split; [exact K1|]. split; [exact HeF|].
    split; [rewrite KF; exact K1|]. split.
    + unfold run. fold a. f_equal. unfold post_loop.
      rewrite exec_app, He0. cbn [exec]. rewrite HL. exact HeF.
    + intros p p' e Hsplit He.
      pose proof (after_G2_keeps_G2 cfg a) as Hall. rewrite Hsplit in Hall.
      rewrite (exec_preserves (Forall_app_l _ _ _ Hall) He). exact K1.
  - apply G2_of_shape; assumption.
  - intros r c Hr Hc'. apply (G2_of_entry H1 H2 H3 H4 H5 H6 Hr Hc').
Qed.

End TailFacts.

End ScriptFacts.

(** *** The one-point instance, two trials, seeds 1986 and 1989 *)

Lemma toy_accs_shape (indist : bool) :
  let a := fst (Script.run_loop (toy_cfg indist false 2 1986 1989)) in
  has_shape 1 1 (Accum.ii (Script.G1 a)) /\ has_shape 1 1 (Accum.ss (Script.G1 a)) /\
  has_shape 1 1 (Accum.si (Script.G1 a)) /\ has_shape 1 1 (Accum.si_dagger (Script.G1 a)) /\
  has_shape 1 1 (Accum.si (Script.Q a)) /\ has_shape 1 1 (Accum.si_dagger (Script.Q a)).
Proof.
  destruct indist; repeat split; repeat constructor.
Qed.

Lemma toy_no_polar_shapes (indist : bool) :
  let cfg := toy_cfg indist false 2 1986 1989 in
  Views.polar_shapes cfg (fst (Script.run_loop cfg)).
Proof. intros cfg Hp. discriminate Hp. Qed.

(** The same with [DO_POLAR] set. *)
Lemma toy_polar_accs_shape (indist : bool) :
  let cfg := toy_cfg indist true 2 1986 1989 in
  let a := fst (Script.run_loop cfg) in
  Views.acc_shapes 1 (Script.G1 a) (Script.Q a) /\ Views.polar_shapes cfg a.
Proof.
  intros cfg a. split.
  - destruct indist; repeat split; repeat constructor.
  - intros _ g q Eg Eq.
    destruct indist; injection Eg as <-; injection Eq as <-;
      repeat split; repeat constructor.
Qed.

Lemma G2_composed_once_witness :
  let cfg := toy_cfg true true 2 1986 1989 in
  let a := fst (Script.run_loop cfg) in
  exists eF, Script.run cfg = (a, Some eF) /\
             eF Script.VG2 = Some (Script.ValR (Script.compose_G2 (Script.G1 a) (Script.Q a))).
Proof.
  intros cfg a.
  destruct (toy_polar_accs_shape true) as ((H1 & H2 & H3 & H4 & H5 & H6) & Hps).
  destruct (ScriptFacts.G2_composed_once cfg H1 H2 H3 H4 H5 H6) as (_ & _ & Hrun & _).
  destruct (Hrun Hps) as (e0 & e1 & eF & _ & _ & _ & _ & _ & HG2 & Hrun' & _).
  exists eF. split; [exact Hrun'|exact HG2].
Defined.

Lemma degenerate_mode_aliasing_witness :
  let cfg := toy_cfg true true 2 1986 1989 in
  Script.G1_pol (fst (Script.run_loop cfg)) <> None /\
  Forall Script.degenerate_event (snd (Script.run_loop cfg)).
Proof.
  intros cfg.
  destruct (ScriptFacts.degenerate_mode_aliasing cfg eq_refl)
    as (_ & (_ & _ & Hpol & _) & _ & Hlog).
  split; [|exact Hlog]. rewrite Hpol. discriminate.
Defined.


Lemma idler_seed_unused_when_degenerate_witness :
  Script.run (Script.with_key2 (toy_cfg true false 2 1986 1989) 7)
  = Script.run (toy_cfg true false 2 1986 1989).
Proof.
  exact (proj2 (proj2 (proj2 (ScriptFacts.idler_seed_unused_when_degenerate
                                (toy_cfg true false 2 1986 1989) 7 eq_refl)))).
Defined.

(** In the distinguishable loop the idler's seed does matter: the flag in
    C10 is needed. *)
Lemma dist_mode_reads_idler_seed :
  Script.run_loop (Script.with_key2 (toy_cfg false false 1 0 0) 1)
  <> Script.run_loop (toy_cfg false false 1 0 0).
Proof.
  intros H.
  apply (f_equal (fun st : @Script.LoopState toy_funcs =>
                    @acc_ii toy_funcs (Script.G1 (fst st)))) in H.
  cbv in H. injection H as H _. lra.
Qed.

(** On a 2 by 2 grid a 6 by 6 polar array stops line 194. *)
Lemma polar_mismatch_stops_line_194 :
  Script.masked_diag (toy_cfg_grid2 1) (zeros 6 6) 1%R = None.
Proof.
  apply (ScriptFacts.masked_diag_mismatch (toy_cfg_grid2 1) (zeros 6 6) 1%R 6 6).
  - discriminate.
  - reflexivity.
  - left. reflexivity.
Qed.

(* ================================================================= *)
(** * Part III: further properties of the script *)
(* ================================================================= *)

Module ViewsFacts.
Import Script Views ScriptFacts.

Section LogFacts.
Context {F : SPDC_funcs}.

(** X1. In either branch, after every pass k each accumulator is the result
    of k + 1 calls of its [update], one per pass 0..k in that order, each
    with the full trial count N as its last argument: G1 and Q on the far
    fields of the pass, the polar pair on their [car2pol] images; without
    [DO_POLAR] the polar pair does not exist.  At the end of the loop each
    has received N calls. *)
Theorem updates_once_per_trial (cfg : Config) :
  let upd := fun (u : AccT -> cmat -> cmat -> cmat -> cmat -> nat -> AccT)
                 (view : Trial -> Trial) g n =>
    let t := view (trial_fields cfg n) in
    u g (t_s_out t) (t_s_vac t) (t_i_out t) (t_i_vac t) (N cfg) in
  let after := fun (ns : list nat) (a : Accs) =>
    G1 a = fold_left (upd G1_update (fun t => t)) ns G1_mat /\
    Q a = fold_left (upd Q_update (fun t => t)) ns Q_mat /\
    G1_pol a = (if DO_POLAR cfg
                then Some (fold_left (upd G1_update polar_fields) ns G1_mat)
                else None) /\
    Q_pol a = (if DO_POLAR cfg
               then Some (fold_left (upd Q_update polar_fields) ns Q_mat)
               else None) in
  length (trajectory cfg) = N cfg /\
  (forall k d, k < N cfg -> after (seq 0 (S k)) (nth k (trajectory cfg) d)) /\
  after (seq 0 (N cfg)) (fst (run_loop cfg)).
Proof.
  intros upd after.
  assert (Hafter : forall ns, after ns (fst (run_trials cfg ns (init_accs cfg, [])))).
  { intros ns.
    exact (run_trials_components cfg (trial_fields cfg) ns (fun n => eq_refl)). }
  split; [|split].
  - unfold trajectory. rewrite trajectory_from_length. apply length_seq.
  - intros k d Hk. rewrite (trajectory_nth cfg k d Hk). apply Hafter.
  - apply Hafter.
Qed.

(** X2. The distinguishable branch.  With [IS_INDISTIGUISHABLE] off, every
    pass builds the signal field from the signal's vacuum sample and the
    idler field from the idler's, propagates the pair with the two-field
    propagator, and hands the accumulators the four far fields, those of the
    signal scaled with the signal's wavelength and those of the idler with
    the idler's; the one-field propagator is never run. *)
Theorem distinguishable_mode_log (cfg : Config) :
  IS_INDISTIGUISHABLE cfg = false ->
  let PP := PP_SLT cfg in
  let shape_x := length (crystal_x PP) in
  let shape_y := length (crystal_y PP) in
  let vs := fun n => nth n (random_normal (key1 cfg) (N cfg) 2 shape_x shape_y) [] in
  let vi := fun n => nth n (random_normal (key2 cfg) (N cfg) 2 shape_x shape_y) [] in
  let P := fun n =>
    crystal_prop (Pump cfg) (Field (Signal cfg) PP (vs n))
                 (Field (Idler cfg) PP (vi n)) PP in
  let c := fun (b : Beam) (E : cmat) =>
    ((2 * MaxX PP) ^ 2 / (INR (np_size E) * beam_lam b * R_screen cfg))%R in
  let so := fun n =>
    mscale (c (Signal cfg) (E_out (fst (P n)))) (Fourier (E_out (fst (P n)))) in
  let sv := fun n =>
    mscale (c (Signal cfg) (E_out (fst (P n)))) (Fourier (E_vac (fst (P n)))) in
  let io := fun n =>
    mscale (c (Idler cfg) (E_out (snd (P n)))) (Fourier (E_out (snd (P n)))) in
  let iv := fun n =>
    mscale (c (Idler cfg) (E_out (snd (P n)))) (Fourier (E_vac (snd (P n)))) in
  let a := fst (run_loop cfg) in
  G1 a = fold_left (fun g n => G1_update g (so n) (sv n) (io n) (iv n) (N cfg))
                   (seq 0 (N cfg)) G1_mat /\
  Q a = fold_left (fun g n => Q_update g (so n) (sv n) (io n) (iv n) (N cfg))
                  (seq 0 (N cfg)) Q_mat /\
  G1_pol a =
    (if DO_POLAR cfg
     then Some (fold_left (fun g n => G1_update g (car2pol (so n)) (car2pol (sv n))
                                        (car2pol (io n)) (car2pol (iv n)) (N cfg))
                          (seq 0 (N cfg)) G1_mat)
     else None) /\
  Q_pol a =
    (if DO_POLAR cfg
     then Some (fold_left (fun g n => Q_update g (car2pol (so n)) (car2pol (sv n))
                                        (car2pol (io n)) (car2pol (iv n)) (N cfg))
                          (seq 0 (N cfg)) Q_mat)
     else None) /\
  snd (run_loop cfg) =
    flat_map (fun n =>
                let t := mkTrial (so n) (sv n) (io n) (iv n) in
                let tp := mkTrial (car2pol (so n)) (car2pol (sv n))
                                  (car2pol (io n)) (car2pol (iv n)) in
                [EvField RSignal n (vs n); EvField RIdler n (vi n);
                 EvProp [RSignal; RIdler] n;
                 EvUpdate NG1 n t (N cfg); EvUpdate NQ n t (N cfg)]
                ++ (if DO_POLAR cfg
                    then [EvUpdate NG1_pol n tp (N cfg); EvUpdate NQ_pol n tp (N cfg)]
                    else []))
             (seq 0 (N cfg)) /\
  (forall n, ~ In (EvProp [RSignal] n) (snd (run_loop cfg))).
Proof.
  intros Hflag PP shape_x shape_y vs vi P c so sv io iv a.
  assert (Ht : forall n,
             (if IS_INDISTIGUISHABLE cfg then fields_indist cfg n else fields_dist cfg n)
             = mkTrial (so n) (sv n) (io n) (iv n)).
  { intros n. rewrite Hflag. reflexivity. }
  destruct (run_trials_components cfg _ (seq 0 (N cfg)) Ht) as (H1 & H2 & H3 & H4).
  assert (Hlog : snd (run_loop cfg) =
                 flat_map (fun n => EvField RSignal n (nth n (vac_rnd_sig cfg) [])
                                    :: EvField RIdler n (nth n (vac_rnd_idl cfg) [])
                                    :: EvProp [RSignal; RIdler] n
                                    :: update_events cfg n (fields_dist cfg n))
                          (seq 0 (N cfg))).
  { unfold run_loop. rewrite run_trials_log. cbn [snd app].
    apply flat_map_ext. intros n. unfold trial_events, trial. rewrite Hflag.
    reflexivity. }
  split; [exact H1|]. split; [exact H2|]. split; [exact H3|]. split; [exact H4|].
  split.
  - rewrite Hlog. reflexivity.
  - intros n Hin. rewrite Hlog in Hin. apply in_flat_map in Hin.
    destruct Hin as [m [_ Hin]].
    destruct Hin as [E | [E | [E | Hin]]]; try discriminate.
    unfold update_events in Hin. destruct (DO_POLAR cfg); cbn in Hin;
      repeat (destruct Hin as [E | Hin]; [discriminate|]); exact Hin.
Qed.

End LogFacts.

Section ResultFacts.
Context {F : SPDC_funcs}.

Lemma rscale_rscale (x y : R) (m : rmat) :
  rscale x (rscale y m) = rscale (x * y) m.
Proof.
  unfold rscale, mmap. rewrite map_map. apply map_ext. intros row.
  rewrite map_map. apply map_ext. intros z. ring.
Qed.

Lemma reduced_scale_spec (cfg : Config) (m : rmat) :
  rscale (/ (norm_i cfg * norm_s cfg))
    (rscale tau
       (rscale (dx_farfield cfg (Signal cfg))
          (rscale (dx_farfield cfg (Idler_after cfg)) m)))
  = rscale (reduced_scale cfg) m.
Proof. rewrite !rscale_rscale. f_equal. unfold reduced_scale. ring. Qed.

Lemma polar_reduced_scale_spec (cfg : Config) (m : rmat) :
  rscale (/ (norm_i cfg * norm_s cfg))
    (rscale tau
       (rscale ((R_screen cfg * tan (theoretical_angle cfg)
                 * dx_farfield cfg (Idler_after cfg)) ^ 2) m))
  = rscale (polar_reduced_scale cfg) m.
Proof. rewrite !rscale_rscale. f_equal. unfold polar_reduced_scale. ring. Qed.

(** When the statements after the loop run through, every name holds what
    [result_of] says; the Cartesian names are bound, the polar ones under
    [DO_POLAR] only. *)
Lemma post_loop_results {cfg : Config} {a : Accs} {e : Env} :
  polar_ok cfg a ->
  exec (post_loop cfg a) unbound = Some e ->
  (forall x, e x = result_of cfg a x) /\
  (forall x, result_of cfg a x <> None <-> (cartesian x = true \/ DO_POLAR cfg = true)).
Proof.
  intros Hp He.
  unfold post_loop, before_G2, after_G2, polar in He.
  destruct (DO_POLAR cfg) eqn:Epol.
  - destruct (Hp Epol) as (g & q & Eg & Eq).
    cbn [app exec] in He.
    unfold exec1, L194, L195, L211, L212, L244, L248, L259, L279, L280,
      L312, L313, L314 in He.
    cbn [rhs target] in He. rewrite Eg, Eq in He. cbn [obind] in He.
    destruct (masked_diag cfg (acc_ii g) (norm_i cfg)) as [d1|] eqn:Ed1;
      cbn [option_map] in He; [|discriminate].
    destruct (masked_diag cfg (acc_ss g) (norm_s cfg)) as [d2|] eqn:Ed2;
      cbn [option_map] in He; [|discriminate].
    destruct (diag_extract (M cfg) (acc_ii (G1 a))) as [mi|] eqn:Ei;
      cbn [option_map] in He; [|discriminate].
    destruct (diag_extract (M cfg) (acc_ss (G1 a))) as [ms|] eqn:Es;
      cbn [option_map] in He; [|discriminate].
    destruct (compose_G2_checked (G1 a) (Q a)) as [g2|] eqn:Eg2;
      cbn [option_map] in He; [|discriminate].
    destruct (compose_G2_checked g q) as [gp|] eqn:Egp;
      cbn [option_map bind Var_eqb as_R as_T unbound] in He; [|discriminate].
    injection He as <-.
    split; intros x; destruct x; unfold result_of;
      rewrite ?Epol, ?Eg, ?Eq; cbn [obind];
      rewrite ?Ed1, ?Ed2, ?Ei, ?Es, ?Eg2, ?Egp;
      cbn [bind Var_eqb option_map cartesian];
      rewrite <- ?reduced_scale_spec, <- ?polar_reduced_scale_spec;
      try reflexivity;
      (split; [intros _; right; reflexivity|intros _; discriminate]).
  - cbn [app exec] in He.
    unfold exec1, L211, L212, L244, L259, L279, L280 in He.
    cbn [rhs target] in He.
    destruct (diag_extract (M cfg) (acc_ii (G1 a))) as [mi|] eqn:Ei;
      cbn [option_map] in He; [|discriminate].
    destruct (diag_extract (M cfg) (acc_ss (G1 a))) as [ms|] eqn:Es;
      cbn [option_map] in He; [|discriminate].
    destruct (compose_G2_checked (G1 a) (Q a)) as [g2|] eqn:Eg2;
      cbn [option_map bind Var_eqb as_R as_T unbound] in He; [|discriminate].
    injection He as <-.
    split; intros x; destruct x; unfold result_of;
      rewrite ?Epol, ?Ei, ?Es, ?Eg2;
      cbn [bind Var_eqb option_map unbound cartesian];
      rewrite <- ?reduced_scale_spec;
      try reflexivity;
      (split; [intros K; first [left; reflexivity | exfalso; apply K; reflexivity]
              |intros [K|K]; first [discriminate K | intros K'; discriminate K']]).
Qed.

(** If one of the two extractions fails, nothing after the loop completes. *)
Lemma post_loop_fails (cfg : Config) (a : Accs) :
  diag_extract (M cfg) (acc_ii (G1 a)) = None \/
  diag_extract (M cfg) (acc_ss (G1 a)) = None ->
  exec (before_G2 cfg a) unbound = None /\ exec (post_loop cfg a) unbound = None.
Proof.
  intros H.
  assert (Hb : exec (before_G2 cfg a) unbound = None).
  { unfold before_G2. rewrite exec_app.
    destruct (exec (polar cfg [L194 cfg a; L195 cfg a]) unbound) as [e|];
      [|reflexivity].
    cbn [exec]. unfold exec1, L211, L212. cbn [rhs target].
    destruct H as [H|H].
    - rewrite H. reflexivity.
    - destruct (diag_extract (M cfg) (acc_ii (G1 a))); [|reflexivity].
      cbn [option_map]. rewrite H. reflexivity. }
  split; [exact Hb|]. unfold post_loop. rewrite exec_app, Hb. reflexivity.
Qed.

(** The script runs through when the arrays of the accumulators are M^2 by
    M^2, those of the polar ones included under [DO_POLAR]. *)
Lemma run_completes (cfg : Config) :
  let a := fst (run_loop cfg) in
  acc_shapes (M cfg ^ 2) (G1 a) (Q a) -> polar_shapes cfg a ->
  exists e, run cfg = (a, Some e).
Proof.
  intros a Hs Hps. pose proof Hs as (Hii & Hss & _).
  pose proof (run_loop_polar_ok cfg) as Hp. fold a in Hp.
  destruct (before_G2_runs Hp Hps Hii Hss) as [e0 He0].
  set (e1 := bind e0 VG2 (ValR (compose_G2 (G1 a) (Q a)))).
  assert (K1 : e1 VG2 = Some (ValR (compose_G2 (G1 a) (Q a)))) by reflexivity.
  destruct (after_G2_runs (cfg := cfg) Hp Hps K1) as [eF HeF].
  exists eF. unfold run. fold a. f_equal. unfold post_loop.
  rewrite exec_app, He0. cbn [exec]. unfold exec1, L244. cbn [rhs target].
  rewrite (compose_G2_checked_shape Hs). exact HeF.
Qed.

(** X3. Toggling [DO_POLAR] changes nothing in the Cartesian pipeline: G1
    and Q after the loop are the same, and when both runs complete, so are
    P_ii, P_ss, G2, G2_unwrapped and G2_reduced. *)
Theorem cartesian_results_ignore_polar (cfg : Config) (b : bool) (e e' : Env) :
  snd (run (with_polar cfg b)) = Some e -> snd (run cfg) = Some e' ->
  G1 (fst (run (with_polar cfg b))) = G1 (fst (run cfg)) /\
  Q (fst (run (with_polar cfg b))) = Q (fst (run cfg)) /\
  forall x, cartesian x = true -> e x = e' x.
Proof.
  intros He He'.
  assert (Hloop : forall ns st st',
             G1 (fst st) = G1 (fst st') -> Q (fst st) = Q (fst st') ->
             G1 (fst (run_trials (with_polar cfg b) ns st))
             = G1 (fst (run_trials cfg ns st')) /\
             Q (fst (run_trials (with_polar cfg b) ns st))
             = Q (fst (run_trials cfg ns st'))).
  { induction ns as [|n ns IH]; intros st st' HG HQ; [split; assumption|].
    cbn [run_trials]. apply IH; rewrite !trial_accs; unfold update_all;
      cbn [G1 Q]; rewrite ?HG, ?HQ; reflexivity. }
  destruct (Hloop (seq 0 (N cfg)) (init_accs (with_polar cfg b), [])
                  (init_accs cfg, []) eq_refl eq_refl) as [HG HQ].
  change (G1 (fst (run_loop (with_polar cfg b))) = G1 (fst (run_loop cfg))) in HG.
  change (Q (fst (run_loop (with_polar cfg b))) = Q (fst (run_loop cfg))) in HQ.
  split; [exact HG|]. split; [exact HQ|].
  intros x Hx. unfold run in He, He'. cbn [snd] in He, He'.
  rewrite (proj1 (post_loop_results (run_loop_polar_ok (with_polar cfg b)) He) x).
  rewrite (proj1 (post_loop_results (run_loop_polar_ok cfg) He') x).
  destruct x; try discriminate; unfold result_of;
    rewrite ?HG, ?HQ; reflexivity.
Qed.

(** In the degenerate loop no pass reads the idler beam. *)
Lemma run_trials_with_Idler (cfg : Config) (b : Beam) (ns : list nat)
      (st : LoopState) :
  IS_INDISTIGUISHABLE cfg = true ->
  run_trials (with_Idler cfg b) ns st = run_trials cfg ns st.
Proof.
  intros H. revert st. induction ns as [|n ns IH]; intros st; [reflexivity|].
  cbn [run_trials]. rewrite IH. f_equal.
  unfold trial. cbn [IS_INDISTIGUISHABLE with_Idler]. rewrite H. reflexivity.
Qed.

(** X4. With [IS_INDISTIGUISHABLE] set, nothing from the loop on reads the
    idler beam: line 132 rebinds [Idler] to the signal beam, so the loop state
    and every result are the same whatever beam [Idler] was at line 58. *)
Theorem idler_beam_unused_when_degenerate (cfg : Config) (b : Beam) :
  IS_INDISTIGUISHABLE cfg = true ->
  Idler_after (with_Idler cfg b) = Signal cfg /\
  run_loop (with_Idler cfg b) = run_loop cfg /\
  run (with_Idler cfg b) = run cfg.
Proof.
  intros H.
  assert (HI : Idler_after (with_Idler cfg b) = Idler_after cfg).
  { unfold Idler_after. cbn [IS_INDISTIGUISHABLE with_Idler Signal Idler].
    rewrite H. reflexivity. }
  assert (Hloop : run_loop (with_Idler cfg b) = run_loop cfg).
  { unfold run_loop. cbn [N with_Idler].
    rewrite run_trials_with_Idler by exact H. reflexivity. }
  split; [rewrite HI; unfold Idler_after; rewrite H; reflexivity|].
  split; [exact Hloop|].
  unfold run. rewrite Hloop. f_equal.
  unfold post_loop, before_G2, after_G2, polar, L194, L195, L211, L212, L244, L248,
    L259, L279, L280, L312, L313, L314, norm_i, norm_s, dx_farfield,
    FFcoordinate_axis, theoretical_angle, masked_diag.
  rewrite HI. reflexivity.
Qed.

Lemma mdivr_P_loop (M : nat) (G : cmat) (x : R) :
  mdivr (P_loop C0 M G) x = P_by_loop M G x.
Proof.
  unfold mdivr, P_loop, P_by_loop, mmap, tabulate. rewrite map_map.
  apply map_ext. intros i. rewrite map_map. reflexivity.
Qed.

(** An extraction that succeeds was made on an M^2 by M^2 array and is the
    array of the loop. *)
Lemma diag_extract_Some (M : nat) (G m : cmat) :
  diag_extract M G = Some m -> has_shape (M ^ 2) (M ^ 2) G /\ m = P_loop C0 M G.
Proof.
  intros E. unfold diag_extract in E.
  destruct (mask_select G (Kron_mask M)) as [l|] eqn:El; [|discriminate].
  pose proof (mask_select_Kron_inv M G l El) as Hs. split; [exact Hs|].
  rewrite <- El in E. fold (diag_extract M G) in E.
  rewrite (diag_extract_P_loop C0 Hs) in E. injection E as <-. reflexivity.
Qed.

(** X5. Lines 211-212 compute what the loop of lines 197-202 computes:
    whenever the script runs through, G1's [ii] and [ss] were M^2 by M^2 and
    P_ii (P_ss) is bound to the M by M array whose entry (i, j) is
    [G1.ii[i, j, i, j]] ([G1.ss[i, j, i, j]]) over the normalisation of the
    idler (signal) beam. *)
Theorem P_maps_match_loop (cfg : Config) (e : Env) :
  snd (run cfg) = Some e ->
  let a := fst (run_loop cfg) in
  has_shape (M cfg ^ 2) (M cfg ^ 2) (acc_ii (G1 a)) /\
  has_shape (M cfg ^ 2) (M cfg ^ 2) (acc_ss (G1 a)) /\
  e VP_ii = Some (ValC (P_by_loop (M cfg) (acc_ii (G1 a)) (norm_i cfg))) /\
  e VP_ss = Some (ValC (P_by_loop (M cfg) (acc_ss (G1 a)) (norm_s cfg))).
Proof.
  intros He a. unfold run in He. cbn [snd] in He. fold a in He.
  pose proof (run_loop_polar_ok cfg) as Hp. fold a in Hp.
  destruct (post_loop_results Hp He) as [Hv Hb].
  pose proof (proj2 (Hb VP_ii) (or_introl eq_refl)) as Ki.
  pose proof (proj2 (Hb VP_ss) (or_introl eq_refl)) as Ks.
  rewrite (Hv VP_ii), (Hv VP_ss). unfold result_of in *.
  destruct (diag_extract (M cfg) (acc_ii (G1 a))) as [mi|] eqn:Ei;
    [|exfalso; apply Ki; reflexivity].
  destruct (diag_extract (M cfg) (acc_ss (G1 a))) as [ms|] eqn:Es;
    [|exfalso; apply Ks; reflexivity].
  destruct (diag_extract_Some _ _ _ Ei) as [Hii ->].
  destruct (diag_extract_Some _ _ _ Es) as [Hss ->].
  cbn [option_map]. rewrite !mdivr_P_loop.
  split; [exact Hii|]. split; [exact Hss|]. split; reflexivity.
Qed.

(** X6. The sparse form of lines 190-195, [G * Kron_diag / x], on an M^2 by
    M^2 array: the product is defined, it keeps the entries at rows and
    columns that are multiples of M + 1, divided by [x], and is zero
    elsewhere; its entry at ([i * (M + 1)], [j * (M + 1)]) is the entry
    (i, j) of the dense map of lines 197-212. *)
Theorem masked_diag_entries (cfg : Config) (g : cmat) (x : R) :
  has_shape (M cfg ^ 2) (M cfg ^ 2) g ->
  exists m, masked_diag cfg g x = Some m /\
  has_shape (M cfg ^ 2) (M cfg ^ 2) m /\
  (forall r c, r < M cfg ^ 2 -> c < M cfg ^ 2 ->
     mget C0 m r c =
     if on_stride (M cfg) r && on_stride (M cfg) c
     then Cdivr (mget C0 g r c) x else C0) /\
  (forall i j, i < M cfg -> j < M cfg ->
     mget C0 m (i * (M cfg + 1)) (j * (M cfg + 1)) =
     mget C0 (P_by_loop (M cfg) g x) i j).
Proof.
  intros Hg. rewrite (masked_diag_shape cfg g x Hg). eexists. split; [reflexivity|].
  set (m := M cfg) in *.
  pose proof (mmap2_shape (fun z d => Cscale (INR d) z) (m ^ 2) (m ^ 2) g
                (Kron_diag m) Hg (Kron_diag_shape m)) as Hs.
  assert (Hentry : forall r c, r < m ^ 2 -> c < m ^ 2 ->
            mget C0 (mdivr (mmap2 (fun z d => Cscale (INR d) z) g (Kron_diag m)) x) r c =
            if on_stride m r && on_stride m c then Cdivr (mget C0 g r c) x else C0).
  { intros r c Hr Hc.
    rewrite (mget_mdivr x Hs Hr Hc).
    rewrite (mget_mmap2 (fun z d => Cscale (INR d) z) C0 0 C0 Hg (Kron_diag_shape m) Hr Hc).
    rewrite Kron_diag_entry by assumption.
    destruct (mget C0 g r c) as [u v].
    destruct (on_stride m r && on_stride m c);
      unfold Cdivr, Cscale, C0, Cre, Cim; simpl; f_equal; unfold Rdiv; ring. }
  split; [apply mdivr_shape, Hs|].
  split; [exact Hentry|].
  intros i j Hi Hj.
  assert (Hr : i * (m + 1) < m ^ 2) by (rewrite Nat.pow_2_r; nia).
  assert (Hc : j * (m + 1) < m ^ 2) by (rewrite Nat.pow_2_r; nia).
  rewrite (Hentry _ _ Hr Hc). unfold on_stride.
  rewrite !Nat.Div0.mod_mul. cbn [Nat.eqb andb].
  unfold P_by_loop. rewrite mget_tabulate by assumption.
  unfold kron_entry. do 2 f_equal; lia.
Qed.

(** X7. When the extraction of line 211 or of line 212 fails (the mask does
    not fit G1's [ii] or [ss], or does not select M * M entries), the script
    stops before line 244: nothing after the loop completes and G2 is never
    composed. *)
Theorem extract_failure_stops_run (cfg : Config) :
  let a := fst (run_loop cfg) in
  diag_extract (M cfg) (acc_ii (G1 a)) = None \/
  diag_extract (M cfg) (acc_ss (G1 a)) = None ->
  exec (before_G2 cfg a) unbound = None /\ snd (run cfg) = None.
Proof.
  intros a H. destruct (post_loop_fails cfg a H) as [Hb Hp].
  split; [exact Hb|]. unfold run. fold a. exact Hp.
Qed.

(** X8. When the script runs through, G2_reduced holds the traced G2 times
    one factor, the product of the two far-field resolutions and of the
    coincidence window over the two normalisations: the two assignments of
    lines 279 and 280 compose to a single scaling of
    [trace_it(unwrap_kron(G2, M), 1, 3)], where G2 is the array line 244
    computed; on accumulators of one shape M^2 by M^2 it is the element-wise
    [G2_of]. *)
Theorem G2_reduced_closed_form (cfg : Config) (e : Env) :
  snd (run cfg) = Some e ->
  let a := fst (run_loop cfg) in
  exists g2,
    compose_G2_checked (G1 a) (Q a) = Some g2 /\
    e VG2 = Some (ValR g2) /\
    assignments VG2_reduced (post_loop cfg a) = 2 /\
    e VG2_unwrapped = Some (ValT (unwrap_kron g2 (M cfg))) /\
    e VG2_reduced =
    Some (ValR (rscale (reduced_scale cfg) (trace_it (unwrap_kron g2 (M cfg)) 1 3))) /\
    (acc_shapes (M cfg ^ 2) (G1 a) (Q a) -> g2 = compose_G2 (G1 a) (Q a)).
Proof.
  intros He a. unfold run in He. cbn [snd] in He. fold a in He.
  pose proof (run_loop_polar_ok cfg) as Hp. fold a in Hp.
  destruct (post_loop_results Hp He) as [Hv Hb].
  pose proof (proj2 (Hb VG2) (or_introl eq_refl)) as K.
  rewrite (Hv VG2), (Hv VG2_unwrapped), (Hv VG2_reduced).
  unfold result_of in *.
  destruct (compose_G2_checked (G1 a) (Q a)) as [g2|] eqn:E;
    [|exfalso; apply K; reflexivity].
  exists g2. split; [reflexivity|]. split; [reflexivity|]. split.
  { unfold assignments, post_loop, before_G2, after_G2, polar.
    destruct (DO_POLAR cfg); reflexivity. }
  split; [reflexivity|]. split; [reflexivity|].
  intros Hs. rewrite (compose_G2_checked_shape Hs) in E. injection E as <-.
  reflexivity.
Qed.

(** X9. When the script runs through, the five Cartesian names are bound,
    and each of the five polar names is bound exactly when [DO_POLAR] is
    set. *)
Theorem polar_names_bound_iff (cfg : Config) (e : Env) :
  snd (run cfg) = Some e ->
  forall x, e x <> None <-> (cartesian x = true \/ DO_POLAR cfg = true).
Proof.
  intros He x. unfold run in He. cbn [snd] in He.
  destruct (post_loop_results (run_loop_polar_ok cfg) He) as [Hv Hb].
  rewrite (Hv x). apply Hb.
Qed.

End ResultFacts.

End ViewsFacts.

(** ** Further properties of the composed G2 and of the indicator *)

Lemma Cre_mul_conj_pair (x y : C) :
  Cre (Cmul (Cconj x) (Cconj y)) = Cre (Cmul x y).
Proof. destruct x, y. unfold Cre, Cmul, Cconj, Cim. simpl. ring. Qed.

Lemma Cre_mul_conj_swap (u v : C) :
  Cre (Cmul (Cconj u) v) = Cre (Cmul (Cconj v) u).
Proof. destruct u, v. unfold Cre, Cmul, Cconj, Cim. simpl. ring. Qed.

Lemma Cre_add (x y : C) : Cre (Cadd x y) = (Cre x + Cre y)%R.
Proof. reflexivity. Qed.

Lemma Cre_mul_conj_self (z : C) : Cre (Cmul (Cconj z) z) = Cnorm2 z.
Proof. destruct z. unfold Cre, Cmul, Cconj, Cim, Cnorm2. simpl. ring. Qed.

(** X10. G2 is a symmetric matrix when G1's [ii] and [ss] are Hermitian and
    each [si_dagger] is the conjugate transpose of its [si]:
    G2[r][c] = G2[c][r]. *)
Theorem G2_symmetric (n : nat) (g_ii g_ss g_si g_sid q_si q_sid : cmat) (r c : nat) :
  has_shape n n g_ii -> has_shape n n g_ss ->
  has_shape n n g_si -> has_shape n n q_si ->
  Accum.hermitian g_ii -> Accum.hermitian g_ss ->
  g_sid = dagger g_si -> q_sid = dagger q_si ->
  r < n -> c < n ->
  mget 0%R (G2_of g_ii g_ss g_si g_sid q_si q_sid) r c
  = mget 0%R (G2_of g_ii g_ss g_si g_sid q_si q_sid) c r.
Proof.
  intros H1 H2 H3 H5 Hh1 Hh2 -> -> Hr Hc.
  pose proof (dagger_shape H3) as H4. pose proof (dagger_shape H5) as H6.
  rewrite (G2_of_entry H1 H2 H3 H4 H5 H6 Hr Hc).
  rewrite (G2_of_entry H1 H2 H3 H4 H5 H6 Hc Hr).
  unfold G2_entry. rewrite !(mget_dagger n) by assumption.
  rewrite (hermitian_entry H1 Hh1 Hc Hr), (hermitian_entry H2 Hh2 Hc Hr).
  rewrite !Cre_add, Cre_mul_conj_pair.
  rewrite (Cre_mul_conj_swap (mget C0 q_si c r)), (Cre_mul_conj_swap (mget C0 g_si c r)).
  reflexivity.
Qed.

(** X11. On the diagonal G2 is the sum the comment at line 239 gives: the
    product of the (real) diagonal entries of [ii] and [ss] plus the squared
    moduli of the diagonal entries of G1's and Q's [si]. *)
Theorem G2_diagonal_decomposition (n : nat) (g_ii g_ss g_si g_sid q_si q_sid : cmat)
        (k : nat) :
  has_shape n n g_ii -> has_shape n n g_ss ->
  has_shape n n g_si -> has_shape n n q_si ->
  Accum.hermitian g_ii -> Accum.hermitian g_ss ->
  g_sid = dagger g_si -> q_sid = dagger q_si ->
  k < n ->
  mget 0%R (G2_of g_ii g_ss g_si g_sid q_si q_sid) k k
  = (Cre (mget C0 g_ii k k) * Cre (mget C0 g_ss k k)
     + Cnorm2 (mget C0 q_si k k) + Cnorm2 (mget C0 g_si k k))%R.
Proof.
  intros H1 H2 H3 H5 Hh1 Hh2 -> -> Hk.
  pose proof (dagger_shape H3) as H4. pose proof (dagger_shape H5) as H6.
  rewrite (G2_of_entry H1 H2 H3 H4 H5 H6 Hk Hk).
  unfold G2_entry. rewrite !(mget_dagger n) by assumption.
  rewrite !Cre_add, !Cre_mul_conj_self.
  pose proof (hermitian_diag_real H1 Hh1 Hk) as I1.
  destruct (mget C0 g_ii k k) as [a b], (mget C0 g_ss k k) as [c e].
  unfold Cre, Cim, Cmul in *. simpl in *. subst b. ring.
Qed.

Lemma select_row_self {A : Type} (p : A -> bool) (row : list A) :
  select_row row (map p row) = filter p row.
Proof.
  unfold select_row. induction row as [|x t IH]; [reflexivity|].
  cbn [map combine filter snd]. destruct (p x); cbn [map fst]; rewrite IH; reflexivity.
Qed.

Lemma selected_self {A : Type} (p : A -> bool) (m : matrix A) :
  selected m (mmap p m) = filter p (ravel m).
Proof.
  unfold selected, mmap, ravel. induction m as [|row m IH]; [reflexivity|].
  cbn [map map2 concat]. rewrite filter_app, select_row_self, IH. reflexivity.
Qed.

(** X12. The indicator of lines 69-70 has M^2 * M^2 entries of which exactly
    M * M are not zero, for every M: the mask of lines 211-212 always selects
    as many entries as an M by M array holds. *)
Theorem Kron_diag_nonzero_count (M : nat) :
  length (ravel (Kron_diag M)) = M ^ 2 * M ^ 2 /\
  length (filter (fun x => negb (x =? 0)) (ravel (Kron_diag M))) = M * M.
Proof.
  split.
  - apply (length_ravel (Kron_diag_shape M)).
  - rewrite <- selected_self. fold (Kron_mask M).
    rewrite (selected_Kron 0 (Kron_diag_shape M)).
    apply (length_ravel (tabulate_shape M M _)).
Qed.

(** *** The further properties on the sample data *)

Lemma toy_run_completes (indist pol : bool) :
  let cfg := toy_cfg indist pol 2 1986 1989 in
  exists e, Script.run cfg = (fst (Script.run_loop cfg), Some e).
Proof.
  intros cfg. destruct pol.
  - destruct (toy_polar_accs_shape indist) as [Hs Hps].
    exact (ViewsFacts.run_completes cfg Hs Hps).
  - exact (ViewsFacts.run_completes cfg (toy_accs_shape indist)
             (toy_no_polar_shapes indist)).
Qed.

Lemma distinguishable_mode_log_witness :
  let cfg := toy_cfg false true 2 1986 1989 in
  Script.G1_pol (fst (Script.run_loop cfg)) <> None /\
  ~ In (Script.EvProp [Script.RSignal] 1) (snd (Script.run_loop cfg)).
Proof.
  intros cfg.
  pose proof (ViewsFacts.distinguishable_mode_log cfg eq_refl)
    as (_ & _ & H3 & _ & _ & H6).
  split; [rewrite H3; discriminate|exact (H6 1)].
Defined.

Lemma cartesian_results_ignore_polar_witness :
  let cfg := toy_cfg false false 2 1986 1989 in
  exists e e',
    snd (Script.run (Views.with_polar cfg true)) = Some e /\
    snd (Script.run cfg) = Some e' /\
    e Script.VG2 = e' Script.VG2.
Proof.
  intros cfg.
  destruct (toy_run_completes false true) as [e He].
  destruct (toy_run_completes false false) as [e' He'].
  apply (f_equal snd) in He. apply (f_equal snd) in He'. cbn [snd] in He, He'.
  exists e, e'. split; [exact He|]. split; [exact He'|].
  exact (proj2 (proj2 (ViewsFacts.cartesian_results_ignore_polar cfg true e e' He He'))
               Script.VG2 eq_refl).
Defined.

Lemma idler_beam_unused_when_degenerate_witness :
  Script.run (Views.with_Idler (toy_cfg true false 2 1986 1989) tt)
  = Script.run (toy_cfg true false 2 1986 1989).
Proof.
  exact (proj2 (proj2 (ViewsFacts.idler_beam_unused_when_degenerate
                         (toy_cfg true false 2 1986 1989) tt eq_refl))).
Defined.

Lemma P_maps_match_loop_witness :
  let cfg := toy_cfg false true 2 1986 1989 in
  let a := fst (Script.run_loop cfg) in
  exists e, snd (Script.run cfg) = Some e /\
    e Script.VP_ii
    = Some (Script.ValC (Views.P_by_loop 1 (Accum.ii (Script.G1 a)) 1%R)).
Proof.
  intros cfg a.
  destruct (toy_run_completes false true) as [e He].
  apply (f_equal snd) in He. cbn [snd] in He.
  exists e. split; [exact He|].
  exact (proj1 (proj2 (proj2 (ViewsFacts.P_maps_match_loop cfg e He)))).
Defined.

Lemma masked_diag_entries_witness :
  exists m,
    Script.masked_diag (toy_cfg false false 2 1986 1989) one_field 1%R = Some m /\
    mget C0 m 0 0 = mget C0 (Views.P_by_loop 1 one_field 1%R) 0 0.
Proof.
  assert (Hs : has_shape 1 1 one_field) by repeat constructor.
  destruct (ViewsFacts.masked_diag_entries
              (toy_cfg false false 2 1986 1989) one_field 1%R Hs)
    as (m & Hm & _ & _ & Hd).
  exists m. split; [exact Hm|exact (Hd 0 0 Nat.lt_0_1 Nat.lt_0_1)].
Defined.

Lemma extract_failure_stops_run_witness :
  snd (Script.run (toy_cfg_grid2 1)) = None.
Proof.
  exact (proj2 (ViewsFacts.extract_failure_stops_run (toy_cfg_grid2 1)
                  (or_introl eq_refl))).
Defined.

Lemma G2_reduced_closed_form_witness :
  let cfg := toy_cfg false true 2 1986 1989 in
  exists e g2, snd (Script.run cfg) = Some e /\
               e Script.VG2 = Some (Script.ValR g2) /\
               e Script.VG2_unwrapped
               = Some (Script.ValT (@unwrap_kron toy_funcs g2 (Script.M cfg))).
Proof.
  intros cfg.
  destruct (toy_run_completes false true) as [e He].
  apply (f_equal snd) in He. cbn [snd] in He.
  destruct (ViewsFacts.G2_reduced_closed_form cfg e He)
    as (g2 & _ & H2 & _ & H4 & _).
  exists e, g2. split; [exact He|]. split; [exact H2|exact H4].
Defined.

Lemma polar_names_bound_iff_witness :
  let cfg := toy_cfg false false 2 1986 1989 in
  exists e, snd (Script.run cfg) = Some e /\ e Script.VG2_pol = None.
Proof.
  intros cfg.
  destruct (toy_run_completes false false) as [e He].
  apply (f_equal snd) in He. cbn [snd] in He.
  exists e. split; [exact He|].
  destruct (e Script.VG2_pol) as [v|] eqn:Ev; [|reflexivity].
  assert (K : e Script.VG2_pol <> None) by (rewrite Ev; discriminate).
  apply (ViewsFacts.polar_names_bound_iff cfg e He) in K.
  destruct K as [K|K]; discriminate K.
Defined.

Lemma sample2_shapes :
  has_shape 2 2 sample2_ii /\ has_shape 2 2 sample2_ss /\
  has_shape 2 2 sample2_si /\ has_shape 2 2 sample2_Q_si.
Proof. repeat split; repeat constructor. Qed.

Lemma sample2_hermitian :
  Accum.hermitian sample2_ii /\ Accum.hermitian sample2_ss.
Proof.
  split;
    unfold Accum.hermitian, dagger, mconj, mmap, transpose, Cconj, Cre, Cim,
      sample2_ii, sample2_ss;
    simpl; repeat f_equal; lra.
Qed.

Lemma G2_symmetric_witness :
  mget 0%R (G2_of sample2_ii sample2_ss sample2_si (dagger sample2_si)
                  sample2_Q_si (dagger sample2_Q_si)) 0 1
  = mget 0%R (G2_of sample2_ii sample2_ss sample2_si (dagger sample2_si)
                    sample2_Q_si (dagger sample2_Q_si)) 1 0.
Proof.
  destruct sample2_shapes as (S1 & S2 & S3 & S4).
  destruct sample2_hermitian as (E1 & E2).
  apply (G2_symmetric 2); try assumption; try reflexivity; lia.
Defined.

Lemma G2_diagonal_decomposition_witness :
  mget 0%R (G2_of sample2_ii sample2_ss sample2_si (dagger sample2_si)
                  sample2_Q_si (dagger sample2_Q_si)) 1 1
  = (Cre (mget C0 sample2_ii 1 1) * Cre (mget C0 sample2_ss 1 1)
     + Cnorm2 (mget C0 sample2_Q_si 1 1) + Cnorm2 (mget C0 sample2_si 1 1))%R.
Proof.
  destruct sample2_shapes as (S1 & S2 & S3 & S4).
  destruct sample2_hermitian as (E1 & E2).
  apply (G2_diagonal_decomposition 2); try assumption; try reflexivity; lia.
Defined.
